(** * Parton-shower jet simulator: a shallow embedding of [jet_sim_3d.py]

    The program builds a binary tree of momentum vectors by recursive random
    splitting ([create_tree], [split], [gen_z_val], [gen_theta_val],
    [gen_phi_val]) and walks it to plot one 3-D line per node
    ([Visualizer3D.create_graph]).

    Conventions of the embedding.
    - Python floats are read as real numbers ([R]); [math.cos], [math.sin],
      [math.pi] and [np.sqrt] are [cos], [sin], [PI] and [sqrt].
    - The global generator behind [random.random()] is a stream of draws
      [draws : nat -> R] together with a cursor kept in the program state.
    - The program state ([World]) holds what the functions can change: the
      cursor of the generator, numpy's global print precision and the
      records handed to [logging.info].
    - The two [while True] rejection loops are bounded by a [fuel] argument;
      running out of fuel ([None]) stands for a loop that has not accepted
      yet. *)

From Stdlib Require Import Reals Lra Lia ZArith List Bool.
From Equations Require Import Equations.
Import ListNotations.

Open Scope R_scope.

(** ** Data model *)

(** A numpy array of shape 1x3, [np.array([[x, y, z]])]; [v[0, 0]],
    [v[0, 1]] and [v[0, 2]] are the three projections. *)
Record RowVec : Type := mkRowVec { at00 : R; at01 : R; at02 : R }.

(** A reference to a [Parton] object, or Python's [None].  [Parton d l r]
    is an object with [data = d], [left_child = l] and [right_child = r]. *)
Inductive PartonRef : Type :=
| NoneRef : PartonRef
| Parton (data : RowVec) (left_child right_child : PartonRef) : PartonRef.

(** What one call of [logging.info] is given. *)
Inductive LogRecord : Type :=
| LogAngles (theta_0_deg theta_deg phi_deg : R)
| LogSplit (p_0 p_rad p_f : RowVec).

(** One call of [Axes3D.plot([x_0, x_end], [y_0, y_end], [z_0, z_end])]. *)
Record Line3D : Type := mkLine3D { xs : R * R; ys : R * R; zs : R * R }.

(** The state the shower builder runs in. *)
Record World : Type := mkWorld {
  rand_pos : nat;          (* draws consumed from the global generator *)
  np_precision : Z;        (* numpy's global print precision (default 8) *)
  log : list LogRecord     (* records emitted so far, oldest first *)
}.

(** ** A state monad with divergence *)

Module M.

Definition t (A : Type) : Type := World -> option (A * World).

Definition ret {A} (a : A) : t A := fun w => Some (a, w).

Definition bind {A B} (m : t A) (k : A -> t B) : t B :=
  fun w => match m w with
           | None => None
           | Some (a, w') => k a w'
           end.

End M.

Declare Scope monad_scope.
Delimit Scope monad_scope with monad.
Notation "x <- m ;; k" := (M.bind m (fun x => k))
  (at level 61, m at next level, right associativity) : monad_scope.
Notation "' pat <- m ;; k" := (M.bind m (fun x => match x with pat => k end))
  (at level 61, pat pattern, m at next level, right associativity) : monad_scope.
Notation "m ;;; k" := (M.bind m (fun _ => k))
  (at level 61, right associativity) : monad_scope.

(** ** Library calls *)

Definition logging_info (r : LogRecord) : M.t unit :=
  fun w => Some (tt, mkWorld (rand_pos w) (np_precision w) (log w ++ [r])).

Definition np_set_printoptions (precision : Z) : M.t unit :=
  fun w => Some (tt, mkWorld (rand_pos w) precision (log w)).

(** [np.sum(np.power(p_0, 2))] *)
Definition np_sum_power2 (p_0 : RowVec) : R :=
  at00 p_0 ^ 2 + at01 p_0 ^ 2 + at02 p_0 ^ 2.

(** The Euclidean norm, as the specification writes it. *)
Definition norm (p : RowVec) : R :=
  sqrt (at00 p * at00 p + at01 p * at01 p + at02 p * at02 p).

(** ** The splitter *)

Definition split (p_0 : RowVec) (z theta_0 theta phi : R)
  : M.t (RowVec * RowVec) :=
  (let mag := sqrt (np_sum_power2 p_0) in
   let mag_rad := mag * z in
   let mag_f := mag * (1 - z) in
   let theta_rad := theta_0 + theta in
   let theta_f := theta_0 - theta in
   let phi_rad := phi in
   let phi_f := phi + PI in
   logging_info (LogAngles (theta_0 * 180 / PI) (theta * 180 / PI)
                           (phi * 180 / PI)) ;;;
   let p_rad := mkRowVec (mag_rad * cos theta_rad) (mag_rad * sin theta_rad)
                         (mag_rad * sin phi_rad) in
   let p_f := mkRowVec (mag_f * cos theta_f) (mag_f * sin theta_f)
                       (mag_f * sin phi_f) in
   np_set_printoptions 2 ;;;
   logging_info (LogSplit p_0 p_rad p_f) ;;;
   M.ret (p_rad, p_f))%monad.

(** ** The samplers and the tree builder *)

Section Shower.

(** The stream the global generator produces; [random.random()] hands out
    [draws 0], [draws 1], ... in turn. *)
Variable draws : nat -> R.

Definition random : M.t R :=
  fun w => Some (draws (rand_pos w),
                 mkWorld (S (rand_pos w)) (np_precision w) (log w)).

Fixpoint gen_z_val (fuel : nat) : M.t R :=
  match fuel with
  | O => fun _ => None
  | S fuel' =>
      (num <- random ;;
       let f := 1 / (1 + num) in
       u <- random ;;
       if Rle_dec u f then M.ret num else gen_z_val fuel')%monad
  end.

Fixpoint gen_theta_val (fuel : nat) : M.t R :=
  match fuel with
  | O => fun _ => None
  | S fuel' =>
      (r <- random ;;
       let num := r * PI / 2 in
       let f := 1 / (1 + num) in
       u <- random ;;
       if Rle_dec u f then M.ret num else gen_theta_val fuel')%monad
  end.

Definition gen_phi_val : M.t R :=
  (r <- random ;; M.ret (r * PI / 2))%monad.

Equations? create_tree (fuel : nat) (p_0 : RowVec) (theta_0 : R)
    (max_layers curr_layer : Z) : M.t PartonRef
    by wf (Z.to_nat (max_layers - curr_layer)) lt :=
  create_tree fuel p_0 theta_0 max_layers curr_layer
    with Z_ge_dec curr_layer max_layers := {
    | left _ => M.ret NoneRef
    | right _ =>
        (z <- gen_z_val fuel ;;
         theta <- gen_theta_val fuel ;;
         phi <- gen_phi_val ;;
         ' (p_rad, p_f) <- split p_0 z theta_0 theta phi ;;
         l <- create_tree fuel p_rad (theta_0 + theta) max_layers
                (curr_layer + 1) ;;
         r <- create_tree fuel p_f (theta_0 - theta) max_layers
                (curr_layer + 1) ;;
         M.ret (Parton p_0 l r))%monad }.
Proof. all: lia. Qed.

End Shower.

(** ** The renderer *)

(** [Visualizer3D.create_graph]; the axes object is the list of the lines
    plotted on it so far, oldest first. *)
Fixpoint create_graph (node : PartonRef) (x_0 y_0 z_0 : R)
    (axes : list Line3D) : list Line3D :=
  match node with
  | NoneRef => axes
  | Parton data left_child right_child =>
      let x_end := x_0 + at00 data in
      let y_end := y_0 + at01 data in
      let z_end := z_0 + at02 data in
      let axes := axes ++ [mkLine3D (x_0, x_end) (y_0, y_end) (z_0, z_end)] in
      let axes := create_graph left_child x_end y_end z_end axes in
      create_graph right_child x_end y_end z_end axes
  end.

(** ** Observations on trees and runs *)

(** The value a computation returns from a given state, if it returns. *)
Definition eval {A} (m : M.t A) (w : World) : option A :=
  match m w with
  | Some (a, _) => Some a
  | None => None
  end.

(** Number of [Parton] objects reachable from a reference. *)
Fixpoint size (t : PartonRef) : nat :=
  match t with
  | NoneRef => O
  | Parton _ l r => S (size l + size r)
  end.

Definition is_none (t : PartonRef) : bool :=
  match t with
  | NoneRef => true
  | Parton _ _ _ => false
  end.

(** The depth of every leaf (a node with no child), left to right, where
    the root of [t] sits at depth [d]: the number of nodes on the path from
    the root of the whole tree down to the leaf when that root has depth 1. *)
Fixpoint leaf_depths (d : Z) (t : PartonRef) : list Z :=
  match t with
  | NoneRef => []
  | Parton _ l r =>
      if (is_none l && is_none r)%bool then [d]
      else leaf_depths (d + 1) l ++ leaf_depths (d + 1) r
  end.

(** No reachable node has exactly one child. *)
Fixpoint no_single_child (t : PartonRef) : bool :=
  match t with
  | NoneRef => true
  | Parton _ l r =>
      (Bool.eqb (is_none l) (is_none r)
       && no_single_child l && no_single_child r)%bool
  end.

(** The perfect binary trees of height [h]. *)
Fixpoint perfect (h : nat) (t : PartonRef) : Prop :=
  match h, t with
  | O, NoneRef => True
  | S h', Parton _ l r => perfect h' l /\ perfect h' r
  | _, _ => False
  end.

(** The root object, when there is one, stores [p]. *)
Definition root_is (p : RowVec) (t : PartonRef) : Prop :=
  match t with
  | NoneRef => True
  | Parton d _ _ => d = p
  end.

(** The segments of a tree in preorder, as the specification describes the
    traversal: the node's own segment, then the left subtree, then the right
    subtree, both anchored at the node's endpoint. *)
Fixpoint preorder_lines (t : PartonRef) (x_0 y_0 z_0 : R) : list Line3D :=
  match t with
  | NoneRef => []
  | Parton d l r =>
      mkLine3D (x_0, x_0 + at00 d) (y_0, y_0 + at01 d) (z_0, z_0 + at02 d)
      :: preorder_lines l (x_0 + at00 d) (y_0 + at01 d) (z_0 + at02 d)
      ++ preorder_lines r (x_0 + at00 d) (y_0 + at01 d) (z_0 + at02 d)
  end.

(** Assumptions on the generator. *)

(** [random.random()] returns a float in the half-open interval [0.0, 1.0). *)
Definition in_unit_interval (draws : nat -> R) : Prop :=
  forall i, 0 <= draws i < 1.

(** Each rejection loop, wherever it starts in the stream, meets a pair of
    draws that it accepts. *)
Definition eventually_accepts (draws : nat -> R) : Prop :=
  (forall s, exists k,
      draws (S (s + 2 * k)) <= 1 / (1 + draws (s + 2 * k)%nat))
  /\ (forall s, exists k,
      draws (S (s + 2 * k)) <= 1 / (1 + draws (s + 2 * k)%nat * PI / 2)).

(** A computation that leaves the generator and numpy's settings alone and
    only adds records to the log. *)
Definition only_logs {A} (m : M.t A) : Prop :=
  forall w, exists a entries,
    m w = Some (a, mkWorld (rand_pos w) (np_precision w) (log w ++ entries)).

(** The generator that always draws [0.0]. *)
Definition zero_draws : nat -> R := fun _ => 0.

(** A freshly started interpreter: nothing drawn, numpy's default print
    precision, nothing logged. *)
Definition fresh_world : World := mkWorld O 8 [].

(** ** The entry point *)

(** [Visualizer3D.__init__]: a figure with fresh 3-D axes, nothing plotted. *)
Definition Visualizer3D_init : list Line3D := [].

(** The [__main__] block: two showers of four layers from opposite momenta,
    rendered from the origin onto the same axes.  The result is what
    [visualize] puts on screen. *)
Definition main (draws : nat -> R) (fuel : nat) : M.t (list Line3D) :=
  (let p_0 := mkRowVec 100 100 100 in
   let p_1 := mkRowVec (-100) (-100) (-100) in
   root_0 <- create_tree draws fuel p_0 (PI / 4) 4 0 ;;
   root_1 <- create_tree draws fuel p_1 (PI * 5 / 4) 4 0 ;;
   let vis := Visualizer3D_init in
   let vis := create_graph root_0 0 0 0 vis in
   let vis := create_graph root_1 0 0 0 vis in
   M.ret vis)%monad.

(** ** Further observations *)

(** Length of the projection of a vector on the xy-plane. *)
Definition planar_norm (p : RowVec) : R :=
  sqrt (at00 p * at00 p + at01 p * at01 p).

(** The momenta stored in a tree, in preorder. *)
Fixpoint preorder_data (t : PartonRef) : list RowVec :=
  match t with
  | NoneRef => []
  | Parton d l r => d :: preorder_data l ++ preorder_data r
  end.

(** Every node that has two children, with the momenta of the node, of its
    left child and of its right child; in preorder. *)
Fixpoint families (t : PartonRef) : list (RowVec * RowVec * RowVec) :=
  match t with
  | NoneRef => []
  | Parton d l r =>
      match l, r with
      | Parton dl _ _, Parton dr _ _ => [(d, dl, dr)]
      | _, _ => []
      end ++ families l ++ families r
  end.

(** The two ends of a plotted line and the vector between them. *)
Definition start_point (l : Line3D) : R * R * R :=
  (fst (xs l), fst (ys l), fst (zs l)).

Definition end_point (l : Line3D) : R * R * R :=
  (snd (xs l), snd (ys l), snd (zs l)).

Definition displacement (l : Line3D) : RowVec :=
  mkRowVec (snd (xs l) - fst (xs l)) (snd (ys l) - fst (ys l))
           (snd (zs l) - fst (zs l)).

(** A line moved by [(dx, dy, dz)]. *)
Definition translate (dx dy dz : R) (l : Line3D) : Line3D :=
  mkLine3D (fst (xs l) + dx, snd (xs l) + dx)
           (fst (ys l) + dy, snd (ys l) + dy)
           (fst (zs l) + dz, snd (zs l) + dz).

(** Each line starts at one of the points [pts] or where an earlier line of
    the list ends. *)
Fixpoint chained (pts : list (R * R * R)) (ls : list Line3D) : Prop :=
  match ls with
  | [] => True
  | l :: rest => In (start_point l) pts /\ chained (end_point l :: pts) rest
  end.

(** The momenta reported as split by the [split ... into ...] records of a
    log, oldest first. *)
Fixpoint split_sources (records : list LogRecord) : list RowVec :=
  match records with
  | [] => []
  | LogSplit p_0 _ _ :: rest => p_0 :: split_sources rest
  | LogAngles _ _ _ :: rest => split_sources rest
  end.

(** The pair [split] returns for the given arguments. *)
Definition children_of (p z theta_0 theta phi : R) : RowVec * RowVec :=
  (mkRowVec (p * z * cos (theta_0 + theta)) (p * z * sin (theta_0 + theta))
            (p * z * sin phi),
   mkRowVec (p * (1 - z) * cos (theta_0 - theta))
            (p * (1 - z) * sin (theta_0 - theta))
            (p * (1 - z) * sin (phi + PI))).

(** The vector [p] points, in the xy-plane, in the direction of the angle
    [theta_0]: what the docstring of [split] and [create_tree] asks of
    their [theta_0] argument. *)
Definition aligned (p : RowVec) (theta_0 : R) : Prop :=
  at00 p = planar_norm p * cos theta_0
  /\ at01 p = planar_norm p * sin theta_0.

(** Scalar and cross product of the projections on the xy-plane. *)
Definition planar_dot (p q : RowVec) : R :=
  at00 p * at00 q + at01 p * at01 q.

Definition planar_cross (p q : RowVec) : R :=
  at00 p * at01 q - at01 p * at00 q.

(** The norm of the root momentum (0 for [None]) and the sum of the norms
    of the momenta of the leaves. *)
Definition root_norm (t : PartonRef) : R :=
  match t with
  | NoneRef => 0
  | Parton d _ _ => norm d
  end.

Fixpoint leaf_norm_sum (t : PartonRef) : R :=
  match t with
  | NoneRef => 0
  | Parton d l r =>
      if (is_none l && is_none r)%bool then norm d
      else leaf_norm_sum l + leaf_norm_sum r
  end.

(** A generator whose first pair of draws both loops reject and whose
    later draws are all [0.0]. *)
Definition late_draws : nat -> R :=
  fun i => match i with
           | O => 9 / 10
           | S O => 9 / 10
           | _ => 0
           end.

(** * Properties *)

(** ** The monad *)

Lemma bind_Some {A B} (m : M.t A) (k : A -> M.t B) w b w' :
  M.bind m k w = Some (b, w') ->
  exists a w1, m w = Some (a, w1) /\ k a w1 = Some (b, w').
Proof.
  unfold M.bind. destruct (m w) as [[a w1]|]; [|discriminate].
  intros H. exists a, w1. split; [reflexivity | exact H].
Qed.

Lemma bind_run {A B} (m : M.t A) (k : A -> M.t B) w a w1 :
  m w = Some (a, w1) -> M.bind m k w = k a w1.
Proof. unfold M.bind. intros ->. reflexivity. Qed.

(** ** Unfolding [create_tree] *)

Lemma create_tree_stop draws fuel p_0 theta_0 max_layers curr_layer :
  (curr_layer >= max_layers)%Z ->
  create_tree draws fuel p_0 theta_0 max_layers curr_layer = M.ret NoneRef.
Proof.
  intros H. rewrite create_tree_equation_1.
  destruct (Z_ge_dec curr_layer max_layers); [reflexivity | contradiction].
Qed.

Lemma create_tree_step draws fuel p_0 theta_0 max_layers curr_layer :
  (curr_layer < max_layers)%Z ->
  create_tree draws fuel p_0 theta_0 max_layers curr_layer =
  (z <- gen_z_val draws fuel ;;
   theta <- gen_theta_val draws fuel ;;
   phi <- gen_phi_val draws ;;
   ' (p_rad, p_f) <- split p_0 z theta_0 theta phi ;;
   l <- create_tree draws fuel p_rad (theta_0 + theta) max_layers
          (curr_layer + 1) ;;
   r <- create_tree draws fuel p_f (theta_0 - theta) max_layers
          (curr_layer + 1) ;;
   M.ret (Parton p_0 l r))%monad.
Proof.
  intros H. rewrite create_tree_equation_1.
  destruct (Z_ge_dec curr_layer max_layers); [lia | reflexivity].
Qed.

(** ** Properties of the splitter *)

Lemma mag_is_norm p : sqrt (np_sum_power2 p) = norm p.
Proof. unfold np_sum_power2, norm. f_equal. ring. Qed.

Lemma norm_nonneg p : 0 <= norm p.
Proof. apply sqrt_pos. Qed.

(** What one call of [split] returns and what it leaves behind. *)
Lemma split_run p_0 z theta_0 theta phi w :
  let p_rad := mkRowVec (norm p_0 * z * cos (theta_0 + theta))
                        (norm p_0 * z * sin (theta_0 + theta))
                        (norm p_0 * z * sin phi) in
  let p_f := mkRowVec (norm p_0 * (1 - z) * cos (theta_0 - theta))
                      (norm p_0 * (1 - z) * sin (theta_0 - theta))
                      (norm p_0 * (1 - z) * sin (phi + PI)) in
  split p_0 z theta_0 theta phi w =
  Some ((p_rad, p_f),
        mkWorld (rand_pos w) 2
                (log w ++ [LogAngles (theta_0 * 180 / PI) (theta * 180 / PI)
                                     (phi * 180 / PI);
                           LogSplit p_0 p_rad p_f])).
Proof.
  unfold split, M.bind, M.ret, logging_info, np_set_printoptions. simpl.
  rewrite mag_is_norm, <- app_assoc. reflexivity.
Qed.

Lemma sqrt_scaled_circle m a : 0 <= m ->
  sqrt (m * cos a * (m * cos a) + m * sin a * (m * sin a)) = m.
Proof.
  intros Hm.
  replace (m * cos a * (m * cos a) + m * sin a * (m * sin a))
    with (m * m * (Rsqr (sin a) + Rsqr (cos a))) by (unfold Rsqr; ring).
  rewrite sin2_cos2, Rmult_1_r. apply sqrt_square. exact Hm.
Qed.

Lemma norm_scaled m a s : 0 <= m ->
  norm (mkRowVec (m * cos a) (m * sin a) (m * s)) = m * sqrt (1 + s ^ 2).
Proof.
  intros Hm. unfold norm. simpl.
  replace (m * cos a * (m * cos a) + m * sin a * (m * sin a) + m * s * (m * s))
    with (m * m * ((Rsqr (sin a) + Rsqr (cos a)) + s ^ 2))
    by (unfold Rsqr; ring).
  rewrite sin2_cos2, sqrt_mult_alt by nra.
  rewrite sqrt_square by exact Hm. reflexivity.
Qed.

Lemma sin_shift_PI_sq phi : sin (phi + PI) ^ 2 = sin phi ^ 2.
Proof. rewrite neg_sin. ring. Qed.

Lemma norm_unit_x : norm (mkRowVec 1 0 0) = 1.
Proof.
  unfold norm. simpl.
  replace (1 * 1 + 0 * 0 + 0 * 0) with 1 by ring. apply sqrt_1.
Qed.

(** C3.  For every input, [split] returns child A as
    [(mag*z*cos(theta_0+theta), mag*z*sin(theta_0+theta), mag*z*sin(phi))]
    and child B as [(mag*(1-z)*cos(theta_0-theta),
    mag*(1-z)*sin(theta_0-theta), mag*(1-z)*sin(phi+pi))], where [mag] is
    the Euclidean norm of [p_0]; it returns from every state. *)
Theorem split_children p_0 z theta_0 theta phi w :
  let mag := norm p_0 in
  eval (split p_0 z theta_0 theta phi) w =
  Some (mkRowVec (mag * z * cos (theta_0 + theta))
                 (mag * z * sin (theta_0 + theta))
                 (mag * z * sin phi),
        mkRowVec (mag * (1 - z) * cos (theta_0 - theta))
                 (mag * (1 - z) * sin (theta_0 - theta))
                 (mag * (1 - z) * sin (phi + PI))).
Proof.
  intros mag. unfold eval. rewrite split_run. reflexivity.
Qed.

(** C1, as the specification states it, fails: splitting [(1, 0, 0)] with
    [z = 1/2], [theta_0 = theta = 0] and [phi = pi/2] gives a child A of
    norm [sqrt 2 / 2], not [||p_0|| * z = 1/2]. *)
Lemma split_norm_not_conserved :
  0 < 1 / 2 < 1 /\
  exists p_a p_b,
    eval (split (mkRowVec 1 0 0) (1 / 2) 0 0 (PI / 2)) fresh_world
    = Some (p_a, p_b)
    /\ norm p_a <> norm (mkRowVec 1 0 0) * (1 / 2).
Proof.
  split; [lra|].
  unfold eval. rewrite split_run. do 2 eexists. split; [reflexivity|].
  rewrite norm_unit_x, norm_scaled by lra.
  rewrite sin_PI2. replace (1 + 1 ^ 2) with 2 by ring.
  intros H.
  assert (Hs : sqrt 2 = 1) by lra.
  pose proof (sqrt_sqrt 2 ltac:(lra)) as H2.
  rewrite Hs in H2. lra.
Qed.

(** C1, amended.  For every momentum vector [p_0], every [z] in the open
    interval (0,1) and all real [theta_0], [theta], [phi], the two outputs
    of [split] have norms [||p_0|| * z * sqrt (1 + sin(phi)^2)] and
    [||p_0|| * (1-z) * sqrt (1 + sin(phi)^2)]; they are [||p_0|| * z] and
    [||p_0|| * (1-z)] when [sin(phi) = 0]. *)
Theorem split_norms p_0 z theta_0 theta phi w :
  0 < z < 1 ->
  exists p_a p_b,
    eval (split p_0 z theta_0 theta phi) w = Some (p_a, p_b)
    /\ norm p_a = norm p_0 * z * sqrt (1 + sin phi ^ 2)
    /\ norm p_b = norm p_0 * (1 - z) * sqrt (1 + sin phi ^ 2)
    /\ (sin phi = 0 ->
        norm p_a = norm p_0 * z /\ norm p_b = norm p_0 * (1 - z)).
Proof.
  intros Hz. pose proof (norm_nonneg p_0) as Hn.
  unfold eval. rewrite split_run. do 2 eexists. split; [reflexivity|].
  rewrite !norm_scaled by nra. rewrite sin_shift_PI_sq.
  repeat split; try reflexivity.
  - rewrite H. replace (1 + 0 ^ 2) with 1 by ring. rewrite sqrt_1. ring.
  - rewrite H. replace (1 + 0 ^ 2) with 1 by ring. rewrite sqrt_1. ring.
Qed.

Lemma split_norms_witness :
  0 < 1 / 2 < 1 /\
  exists p_a p_b,
    eval (split (mkRowVec 1 0 0) (1 / 2) 0 0 (PI / 2)) fresh_world
    = Some (p_a, p_b)
    /\ norm p_a = norm (mkRowVec 1 0 0) * (1 / 2) * sqrt (1 + sin (PI / 2) ^ 2)
    /\ norm p_b
       = norm (mkRowVec 1 0 0) * (1 - 1 / 2) * sqrt (1 + sin (PI / 2) ^ 2)
    /\ (sin (PI / 2) = 0 ->
        norm p_a = norm (mkRowVec 1 0 0) * (1 / 2)
        /\ norm p_b = norm (mkRowVec 1 0 0) * (1 - 1 / 2)).
Proof.
  assert (Hz : 0 < 1 / 2 < 1) by lra.
  split; [exact Hz|].
  exact (split_norms (mkRowVec 1 0 0) (1 / 2) 0 0 (PI / 2) fresh_world Hz).
Defined.

(** C9.  For every [p_0] (its norm is never negative) and every [z] in
    [0,1], the projections of the two outputs of [split] on the xy-plane
    have lengths [||p_0|| * z] and [||p_0|| * (1-z)]; a zero-magnitude
    input yields two zero vectors. *)
Theorem split_planar_norms p_0 z theta_0 theta phi w :
  0 <= norm p_0 -> 0 <= z <= 1 ->
  exists p_a p_b,
    eval (split p_0 z theta_0 theta phi) w = Some (p_a, p_b)
    /\ sqrt (at00 p_a * at00 p_a + at01 p_a * at01 p_a) = norm p_0 * z
    /\ sqrt (at00 p_b * at00 p_b + at01 p_b * at01 p_b) = norm p_0 * (1 - z)
    /\ (norm p_0 = 0 ->
        p_a = mkRowVec 0 0 0 /\ p_b = mkRowVec 0 0 0).
Proof.
  intros Hn Hz.
  unfold eval. rewrite split_run. do 2 eexists. split; [reflexivity|].
  simpl. rewrite !sqrt_scaled_circle by nra.
  repeat split; try reflexivity.
  - rewrite H. f_equal; ring.
  - rewrite H. f_equal; ring.
Qed.

Lemma split_planar_norms_witness :
  0 <= norm (mkRowVec 0 0 0) /\ 0 <= 1 / 4 <= 1 /\
  exists p_a p_b,
    eval (split (mkRowVec 0 0 0) (1 / 4) 0 1 2) fresh_world = Some (p_a, p_b)
    /\ sqrt (at00 p_a * at00 p_a + at01 p_a * at01 p_a)
       = norm (mkRowVec 0 0 0) * (1 / 4)
    /\ sqrt (at00 p_b * at00 p_b + at01 p_b * at01 p_b)
       = norm (mkRowVec 0 0 0) * (1 - 1 / 4)
    /\ (norm (mkRowVec 0 0 0) = 0 ->
        p_a = mkRowVec 0 0 0 /\ p_b = mkRowVec 0 0 0).
Proof.
  assert (Hn : 0 <= norm (mkRowVec 0 0 0)) by apply norm_nonneg.
  assert (Hz : 0 <= 1 / 4 <= 1) by lra.
  split; [exact Hn|]. split; [exact Hz|].
  exact (split_planar_norms (mkRowVec 0 0 0) (1 / 4) 0 1 2 fresh_world Hn Hz).
Defined.

(** C8, as the specification states it, fails: [split] resets numpy's
    global print precision.  From a fresh interpreter (precision 8) a call
    leaves the precision at 2, so it does more than add log records. *)
Lemma split_changes_print_precision :
  ~ only_logs (split (mkRowVec 1 0 0) (1 / 2) 0 0 0).
Proof.
  intros H. destruct (H fresh_world) as (a & entries & E).
  rewrite split_run in E. simpl in E. discriminate E.
Qed.

(** C8, amended.  [split] does not touch its input vector or the random
    generator; its only effects are the two diagnostic log records and
    setting numpy's global print precision to 2 (which formats the second
    record).  The returned pair depends on the arguments alone: calls with
    identical arguments return identical results from any state. *)
Theorem split_frame p_0 z theta_0 theta phi w :
  exists p_a p_b,
    split p_0 z theta_0 theta phi w =
    Some ((p_a, p_b),
          mkWorld (rand_pos w) 2
                  (log w ++ [LogAngles (theta_0 * 180 / PI)
                                       (theta * 180 / PI) (phi * 180 / PI);
                             LogSplit p_0 p_a p_b]))
    /\ forall w2, eval (split p_0 z theta_0 theta phi) w2 = Some (p_a, p_b).
Proof.
  do 2 eexists. split.
  - rewrite split_run. reflexivity.
  - intros w2. unfold eval. rewrite split_run. reflexivity.
Qed.

(** ** Properties of the samplers *)

Lemma gen_z_val_S draws fuel w :
  gen_z_val draws (S fuel) w =
  let w2 := mkWorld (S (S (rand_pos w))) (np_precision w) (log w) in
  if Rle_dec (draws (S (rand_pos w))) (1 / (1 + draws (rand_pos w)))
  then Some (draws (rand_pos w), w2)
  else gen_z_val draws fuel w2.
Proof.
  simpl. unfold M.bind, random. simpl.
  destruct (Rle_dec _ _); reflexivity.
Qed.

Lemma gen_theta_val_S draws fuel w :
  gen_theta_val draws (S fuel) w =
  let w2 := mkWorld (S (S (rand_pos w))) (np_precision w) (log w) in
  if Rle_dec (draws (S (rand_pos w)))
             (1 / (1 + draws (rand_pos w) * PI / 2))
  then Some (draws (rand_pos w) * PI / 2, w2)
  else gen_theta_val draws fuel w2.
Proof.
  simpl. unfold M.bind, random. simpl.
  destruct (Rle_dec _ _); reflexivity.
Qed.

Lemma gen_phi_val_run draws w :
  gen_phi_val draws w =
  Some (draws (rand_pos w) * PI / 2,
        mkWorld (S (rand_pos w)) (np_precision w) (log w)).
Proof. reflexivity. Qed.

Lemma gen_z_val_range draws fuel : in_unit_interval draws ->
  forall w v w', gen_z_val draws fuel w = Some (v, w') -> 0 <= v < 1.
Proof.
  intros Hd. induction fuel as [|fuel IH]; intros w v w' H.
  - discriminate H.
  - rewrite gen_z_val_S in H. cbv zeta in H.
    destruct (Rle_dec _ _).
    + injection H as <- _. apply Hd.
    + eapply IH, H.
Qed.

Lemma gen_theta_val_range draws fuel : in_unit_interval draws ->
  forall w v w', gen_theta_val draws fuel w = Some (v, w') ->
                 0 <= v < PI / 2.
Proof.
  intros Hd. induction fuel as [|fuel IH]; intros w v w' H.
  - discriminate H.
  - rewrite gen_theta_val_S in H. cbv zeta in H.
    destruct (Rle_dec _ _).
    + injection H as <- _.
      pose proof (Hd (rand_pos w)). pose proof PI_RGT_0. nra.
    + eapply IH, H.
Qed.

(** More fuel never changes a result. *)
Lemma gen_z_val_mono draws fuel : forall fuel' w r, (fuel <= fuel')%nat ->
  gen_z_val draws fuel w = Some r -> gen_z_val draws fuel' w = Some r.
Proof.
  induction fuel as [|fuel IH]; intros fuel' w r Hle H.
  - discriminate H.
  - destruct fuel' as [|fuel']; [lia|].
    rewrite gen_z_val_S in *. cbv zeta in *.
    destruct (Rle_dec _ _); [exact H|].
    apply IH; [lia | exact H].
Qed.

Lemma gen_theta_val_mono draws fuel : forall fuel' w r, (fuel <= fuel')%nat ->
  gen_theta_val draws fuel w = Some r -> gen_theta_val draws fuel' w = Some r.
Proof.
  induction fuel as [|fuel IH]; intros fuel' w r Hle H.
  - discriminate H.
  - destruct fuel' as [|fuel']; [lia|].
    rewrite gen_theta_val_S in *. cbv zeta in *.
    destruct (Rle_dec _ _); [exact H|].
    apply IH; [lia | exact H].
Qed.

(** A loop that meets an accepted pair within [k] further rounds returns
    with fuel [S k]. *)
Lemma gen_z_val_accepts draws k : forall w,
  draws (S (rand_pos w + 2 * k)) <= 1 / (1 + draws (rand_pos w + 2 * k)%nat) ->
  exists r, gen_z_val draws (S k) w = Some r.
Proof.
  induction k as [|k IH]; intros w Hk; rewrite gen_z_val_S; cbv zeta.
  - replace (rand_pos w + 2 * 0)%nat with (rand_pos w) in Hk by lia.
    destruct (Rle_dec _ _); [eexists; reflexivity | contradiction].
  - destruct (Rle_dec _ _); [eexists; reflexivity|].
    apply IH. simpl rand_pos.
    replace (S (S (rand_pos w)) + 2 * k)%nat
      with (rand_pos w + 2 * S k)%nat by lia.
    exact Hk.
Qed.

Lemma gen_theta_val_accepts draws k : forall w,
  draws (S (rand_pos w + 2 * k))
  <= 1 / (1 + draws (rand_pos w + 2 * k)%nat * PI / 2) ->
  exists r, gen_theta_val draws (S k) w = Some r.
Proof.
  induction k as [|k IH]; intros w Hk; rewrite gen_theta_val_S; cbv zeta.
  - replace (rand_pos w + 2 * 0)%nat with (rand_pos w) in Hk by lia.
    destruct (Rle_dec _ _); [eexists; reflexivity | contradiction].
  - destruct (Rle_dec _ _); [eexists; reflexivity|].
    apply IH. simpl rand_pos.
    replace (S (S (rand_pos w)) + 2 * k)%nat
      with (rand_pos w + 2 * S k)%nat by lia.
    exact Hk.
Qed.

Lemma gen_z_val_total draws : eventually_accepts draws ->
  forall w, exists fuel r, gen_z_val draws fuel w = Some r.
Proof.
  intros [Hz _] w. destruct (Hz (rand_pos w)) as [k Hk].
  exists (S k). apply gen_z_val_accepts, Hk.
Qed.

Lemma gen_theta_val_total draws : eventually_accepts draws ->
  forall w, exists fuel r, gen_theta_val draws fuel w = Some r.
Proof.
  intros [_ Ht] w. destruct (Ht (rand_pos w)) as [k Hk].
  exists (S k). apply gen_theta_val_accepts, Hk.
Qed.

Lemma zero_draws_in_unit_interval : in_unit_interval zero_draws.
Proof. intros i. unfold zero_draws. lra. Qed.

Lemma zero_draws_eventually_accepts : eventually_accepts zero_draws.
Proof.
  split; intros s; exists O; unfold zero_draws.
  - lra.
  - replace (0 * PI / 2) with 0 by lra. lra.
Qed.

Lemma gen_z_val_zero_draws fuel w :
  gen_z_val zero_draws (S fuel) w =
  Some (0, mkWorld (S (S (rand_pos w))) (np_precision w) (log w)).
Proof.
  rewrite gen_z_val_S. cbv zeta. unfold zero_draws.
  destruct (Rle_dec _ _) as [_|n]; [reflexivity|].
  exfalso. apply n. lra.
Qed.

Lemma gen_theta_val_zero_draws fuel w :
  gen_theta_val zero_draws (S fuel) w =
  Some (0 * PI / 2, mkWorld (S (S (rand_pos w))) (np_precision w) (log w)).
Proof.
  rewrite gen_theta_val_S. cbv zeta. unfold zero_draws.
  destruct (Rle_dec _ _) as [_|n]; [reflexivity|].
  exfalso. apply n. replace (0 * PI / 2) with 0 by lra. lra.
Qed.

(** C7, as the specification states it, fails at the lower end of both
    intervals: [random.random()] may draw [0.0], and a generator that draws
    [0.0] makes [gen_z_val] return [0] and [gen_theta_val] return
    [0 * pi / 2 = 0]. *)
Lemma samplers_can_return_zero :
  in_unit_interval zero_draws
  /\ (exists v, eval (gen_z_val zero_draws 1) fresh_world = Some v
                /\ ~ 0 < v < 1)
  /\ (exists v, eval (gen_theta_val zero_draws 1) fresh_world = Some v
                /\ ~ 0 < v < PI / 2).
Proof.
  split; [apply zero_draws_in_unit_interval|]. split.
  - exists 0. unfold eval. rewrite gen_z_val_zero_draws. split; [reflexivity|lra].
  - exists (0 * PI / 2). unfold eval. rewrite gen_theta_val_zero_draws.
    split; [reflexivity|lra].
Qed.

(** C7, amended.  For every sequence of uniform draws from [0,1), every
    value returned by [gen_z_val] lies in the half-open interval [0,1) and
    every value returned by [gen_theta_val] lies in [0, pi/2); both loops
    do return when the draws eventually contain an accepted pair. *)
Theorem samplers_range draws :
  in_unit_interval draws ->
  (forall fuel w v w', gen_z_val draws fuel w = Some (v, w') -> 0 <= v < 1)
  /\ (forall fuel w v w',
         gen_theta_val draws fuel w = Some (v, w') -> 0 <= v < PI / 2)
  /\ (eventually_accepts draws ->
      forall w, (exists fuel r, gen_z_val draws fuel w = Some r)
                /\ (exists fuel r, gen_theta_val draws fuel w = Some r)).
Proof.
  intros Hd. repeat split.
  - eapply gen_z_val_range; eauto.
  - eapply gen_z_val_range; eauto.
  - eapply gen_theta_val_range; eauto.
  - eapply gen_theta_val_range; eauto.
  - apply gen_z_val_total; assumption.
  - apply gen_theta_val_total; assumption.
Qed.

Lemma samplers_range_witness :
  in_unit_interval zero_draws
  /\ gen_z_val zero_draws 1 fresh_world = Some (0, mkWorld 2 8 [])
  /\ 0 <= 0 < 1
  /\ gen_theta_val zero_draws 1 fresh_world = Some (0 * PI / 2, mkWorld 2 8 [])
  /\ 0 <= 0 * PI / 2 < PI / 2.
Proof.
  pose proof (samplers_range zero_draws zero_draws_in_unit_interval)
    as (Hz & Ht & _).
  split; [apply zero_draws_in_unit_interval|].
  split; [apply gen_z_val_zero_draws|].
  split; [exact (Hz 1%nat fresh_world 0 _ (gen_z_val_zero_draws 0 fresh_world))|].
  split; [apply gen_theta_val_zero_draws|].
  exact (Ht 1%nat fresh_world _ _ (gen_theta_val_zero_draws 0 fresh_world)).
Defined.

(** ** Perfect trees *)

Lemma perfect_is_none h t : perfect h t -> is_none t = (h =? 0)%nat.
Proof. destruct h, t; simpl; intros H; (reflexivity || contradiction). Qed.

Lemma perfect_size h : forall t, perfect h t -> S (size t) = (2 ^ h)%nat.
Proof.
  induction h as [|h IH]; intros [|d l r] H; simpl in H; try contradiction.
  - reflexivity.
  - destruct H as [Hl Hr]. apply IH in Hl. apply IH in Hr.
    simpl. lia.
Qed.

Lemma perfect_leaf_depths h : forall t d, perfect h t ->
  Forall (fun x => x = (d + Z.of_nat h - 1)%Z) (leaf_depths d t).
Proof.
  induction h as [|h IH]; intros [|p l r] d H; simpl in H; try contradiction.
  - constructor.
  - destruct H as [Hl Hr]. simpl.
    rewrite (perfect_is_none _ _ Hl), (perfect_is_none _ _ Hr).
    destruct h as [|h]; simpl Nat.eqb; cbv iota; simpl andb; cbv iota.
    + constructor; [lia | constructor].
    + apply Forall_app. split.
      * eapply Forall_impl; [|apply (IH l (d + 1)%Z Hl)]. simpl. lia.
      * eapply Forall_impl; [|apply (IH r (d + 1)%Z Hr)]. simpl. lia.
Qed.

Lemma perfect_no_single_child h : forall t,
  perfect h t -> no_single_child t = true.
Proof.
  induction h as [|h IH]; intros [|p l r] H; simpl in H; try contradiction.
  - reflexivity.
  - destruct H as [Hl Hr]. simpl.
    rewrite (perfect_is_none _ _ Hl), (perfect_is_none _ _ Hr).
    rewrite (IH _ Hl), (IH _ Hr), eqb_reflx. reflexivity.
Qed.

(** ** Properties of the tree builder *)

(** A returned tree is perfect, of height [max_layers - curr_layer] (no
    node when that is not positive), and its root stores [p_0]. *)
Lemma create_tree_perfect draws fuel : forall n p_0 theta_0 max_layers
    curr_layer w t w',
  Z.to_nat (max_layers - curr_layer) = n ->
  create_tree draws fuel p_0 theta_0 max_layers curr_layer w = Some (t, w') ->
  perfect n t /\ root_is p_0 t.
Proof.
  induction n as [|n IH]; intros p_0 theta_0 max_layers curr_layer w t w' Hn H.
  - rewrite create_tree_stop in H by lia.
    injection H as <- _. simpl. auto.
  - rewrite create_tree_step in H by lia.
    apply bind_Some in H as (z & w1 & _ & H).
    apply bind_Some in H as (theta & w2 & _ & H).
    apply bind_Some in H as (phi & w3 & _ & H).
    apply bind_Some in H as ([p_rad p_f] & w4 & _ & H).
    apply bind_Some in H as (l & w5 & Hl & H).
    apply bind_Some in H as (r & w6 & Hr & H).
    injection H as <- _.
    apply IH in Hl; [|lia]. apply IH in Hr; [|lia].
    simpl. intuition.
Qed.

Lemma create_tree_mono draws fuel fuel' : (fuel <= fuel')%nat ->
  forall n p_0 theta_0 max_layers curr_layer w r,
  Z.to_nat (max_layers - curr_layer) = n ->
  create_tree draws fuel p_0 theta_0 max_layers curr_layer w = Some r ->
  create_tree draws fuel' p_0 theta_0 max_layers curr_layer w = Some r.
Proof.
  intros Hle.
  induction n as [|n IH]; intros p_0 theta_0 max_layers curr_layer w r Hn H.
  - rewrite create_tree_stop in * by lia. exact H.
  - rewrite create_tree_step in * by lia. destruct r as [t w'].
    apply bind_Some in H as (z & w1 & Hz & H).
    apply bind_Some in H as (theta & w2 & Ht & H).
    apply bind_Some in H as (phi & w3 & Hp & H).
    apply bind_Some in H as ([p_rad p_f] & w4 & Hs & H).
    apply bind_Some in H as (l & w5 & Hl & H).
    apply bind_Some in H as (r & w6 & Hr & H).
    rewrite (bind_run _ _ _ _ _ (gen_z_val_mono _ _ _ _ _ Hle Hz)).
    rewrite (bind_run _ _ _ _ _ (gen_theta_val_mono _ _ _ _ _ Hle Ht)).
    rewrite (bind_run _ _ _ _ _ Hp), (bind_run _ _ _ _ _ Hs).
    apply IH in Hl; [|lia]. apply IH in Hr; [|lia].
    rewrite (bind_run _ _ _ _ _ Hl), (bind_run _ _ _ _ _ Hr).
    exact H.
Qed.

(** With draws that every rejection loop eventually accepts, the builder
    returns once the loops are given enough fuel. *)
Lemma create_tree_total draws : eventually_accepts draws ->
  forall n p_0 theta_0 max_layers curr_layer w,
  Z.to_nat (max_layers - curr_layer) = n ->
  exists fuel r,
    create_tree draws fuel p_0 theta_0 max_layers curr_layer w = Some r.
Proof.
  intros Hd.
  induction n as [|n IH]; intros p_0 theta_0 max_layers curr_layer w Hn.
  - exists O. rewrite create_tree_stop by lia. eexists. reflexivity.
  - destruct (gen_z_val_total _ Hd w) as (f1 & [z w1] & Hz).
    destruct (gen_theta_val_total _ Hd w1) as (f2 & [theta w2] & Ht).
    pose proof (gen_phi_val_run draws w2) as Hp.
    set (phi := draws (rand_pos w2) * PI / 2) in Hp.
    pose proof (split_run p_0 z theta_0 theta phi
                  (mkWorld (S (rand_pos w2)) (np_precision w2) (log w2)))
      as Hs.
    cbv zeta in Hs.
    match type of Hs with _ = Some ((?a, ?b), ?w4) =>
      destruct (IH a (theta_0 + theta) max_layers (curr_layer + 1)%Z w4
                  ltac:(lia)) as (f3 & [l w5] & Hl);
      destruct (IH b (theta_0 - theta) max_layers (curr_layer + 1)%Z w5
                  ltac:(lia)) as (f4 & [r w6] & Hr)
    end.
    set (fuel := Nat.max (Nat.max f1 f2) (Nat.max f3 f4)).
    assert (H1 : (f1 <= fuel)%nat) by (subst fuel; lia).
    assert (H2 : (f2 <= fuel)%nat) by (subst fuel; lia).
    assert (H3 : (f3 <= fuel)%nat) by (subst fuel; lia).
    assert (H4 : (f4 <= fuel)%nat) by (subst fuel; lia).
    apply (gen_z_val_mono _ _ _ _ _ H1) in Hz.
    apply (gen_theta_val_mono _ _ _ _ _ H2) in Ht.
    eapply (create_tree_mono _ _ _ H3) in Hl; [|reflexivity].
    eapply (create_tree_mono _ _ _ H4) in Hr; [|reflexivity].
    exists fuel. eexists.
    rewrite create_tree_step by lia.
    rewrite (bind_run _ _ _ _ _ Hz), (bind_run _ _ _ _ _ Ht).
    rewrite (bind_run _ _ _ _ _ Hp), (bind_run _ _ _ _ _ Hs).
    rewrite (bind_run _ _ _ _ _ Hl), (bind_run _ _ _ _ _ Hr).
    reflexivity.
Qed.

(** One layer, built from the generator that always draws [0.0]. *)
Lemma create_tree_one_layer p_0 theta_0 w :
  exists w',
    create_tree zero_draws 1 p_0 theta_0 1 0 w
    = Some (Parton p_0 NoneRef NoneRef, w').
Proof.
  rewrite create_tree_step by lia.
  rewrite (bind_run _ _ _ _ _ (gen_z_val_zero_draws _ _)).
  rewrite (bind_run _ _ _ _ _ (gen_theta_val_zero_draws _ _)).
  rewrite (bind_run _ _ _ _ _ (gen_phi_val_run _ _)).
  rewrite (bind_run _ _ _ _ _ (split_run _ _ _ _ _ _)).
  rewrite !create_tree_stop by lia.
  eexists. reflexivity.
Qed.

(** The last layer, built from the generator that always draws [0.0]. *)
Lemma create_tree_last_layer p_0 theta_0 max_layers w :
  exists w',
    create_tree zero_draws 1 p_0 theta_0 max_layers (max_layers - 1) w
    = Some (Parton p_0 NoneRef NoneRef, w').
Proof.
  rewrite create_tree_step by lia.
  rewrite (bind_run _ _ _ _ _ (gen_z_val_zero_draws _ _)).
  rewrite (bind_run _ _ _ _ _ (gen_theta_val_zero_draws _ _)).
  rewrite (bind_run _ _ _ _ _ (gen_phi_val_run _ _)).
  rewrite (bind_run _ _ _ _ _ (split_run _ _ _ _ _ _)).
  rewrite !create_tree_stop by lia.
  eexists. reflexivity.
Qed.

(** Two layers, built from the generator that always draws [0.0]. *)
Lemma create_tree_two_layers p_0 theta_0 w :
  exists d_l d_r w',
    create_tree zero_draws 1 p_0 theta_0 2 0 w
    = Some (Parton p_0 (Parton d_l NoneRef NoneRef)
                       (Parton d_r NoneRef NoneRef), w').
Proof.
  rewrite create_tree_step by lia.
  rewrite (bind_run _ _ _ _ _ (gen_z_val_zero_draws _ _)).
  rewrite (bind_run _ _ _ _ _ (gen_theta_val_zero_draws _ _)).
  rewrite (bind_run _ _ _ _ _ (gen_phi_val_run _ _)).
  rewrite (bind_run _ _ _ _ _ (split_run _ _ _ _ _ _)).
  cbv zeta. change (0 + 1)%Z with (2 - 1)%Z.
  match goal with |- context [create_tree _ _ ?a ?th 2 (2 - 1)] =>
    match goal with |- context [M.bind (create_tree _ _ a th 2 (2 - 1)) _ ?w0] =>
      destruct (create_tree_last_layer a th 2 w0) as [w5 Hl]
    end
  end.
  rewrite (bind_run _ _ _ _ _ Hl).
  match goal with |- context [M.bind (create_tree _ _ ?b ?th 2 (2 - 1)) _ w5] =>
    destruct (create_tree_last_layer b th 2 w5) as [w6 Hr]
  end.
  rewrite (bind_run _ _ _ _ _ Hr).
  do 3 eexists. reflexivity.
Qed.

(** C2.  For every [max_layers >= 0], a tree returned by
    [create_tree p_0 theta_0 max_layers 0] has exactly [2^max_layers - 1]
    nodes and every leaf at depth exactly [max_layers], whatever is drawn;
    for [max_layers = 1] it is a single node that stores [p_0] and has no
    child.  The builder does return, given enough fuel, whenever the draws
    let every rejection loop accept. *)
Theorem create_tree_complete draws p_0 theta_0 max_layers :
  (0 <= max_layers)%Z ->
  (forall fuel w t w',
      create_tree draws fuel p_0 theta_0 max_layers 0 w = Some (t, w') ->
      Z.of_nat (size t) = (2 ^ max_layers - 1)%Z
      /\ Forall (fun d => d = max_layers) (leaf_depths 1 t)
      /\ (max_layers = 1%Z -> t = Parton p_0 NoneRef NoneRef))
  /\ (eventually_accepts draws ->
      forall w, exists fuel t w',
        create_tree draws fuel p_0 theta_0 max_layers 0 w = Some (t, w')).
Proof.
  intros Hm. split.
  - intros fuel w t w' H.
    apply (create_tree_perfect _ _ (Z.to_nat max_layers)) in H;
      [|rewrite Z.sub_0_r; reflexivity].
    destruct H as [Hp Hroot]. split; [|split].
    + apply perfect_size in Hp.
      apply (f_equal Z.of_nat) in Hp.
      rewrite Nat2Z.inj_succ, Nat2Z.inj_pow, Z2Nat.id in Hp by lia.
      simpl Z.of_nat in Hp. lia.
    + eapply Forall_impl; [|apply (perfect_leaf_depths _ _ 1%Z Hp)].
      cbv beta. intros d ->. lia.
    + intros ->. change (Z.to_nat 1) with 1%nat in Hp.
      destruct t as [|d [|? ? ?] [|? ? ?]]; simpl in Hp;
        try tauto.
      simpl in Hroot. subst d. reflexivity.
  - intros Hd w.
    destruct (create_tree_total _ Hd (Z.to_nat max_layers) p_0 theta_0
                max_layers 0%Z w ltac:(rewrite Z.sub_0_r; reflexivity))
      as (fuel & [t w'] & H).
    exists fuel, t, w'. exact H.
Qed.

Lemma create_tree_complete_witness :
  (0 <= 1)%Z
  /\ exists t w',
      create_tree zero_draws 1 (mkRowVec 1 0 0) 0 1 0 fresh_world
      = Some (t, w')
      /\ Z.of_nat (size t) = (2 ^ 1 - 1)%Z
      /\ Forall (fun d => d = 1%Z) (leaf_depths 1 t)
      /\ (1%Z = 1%Z -> t = Parton (mkRowVec 1 0 0) NoneRef NoneRef).
Proof.
  assert (Hm : (0 <= 1)%Z) by lia.
  split; [exact Hm|].
  destruct (create_tree_one_layer (mkRowVec 1 0 0) 0 fresh_world) as [w' H].
  exists (Parton (mkRowVec 1 0 0) NoneRef NoneRef), w'.
  split; [exact H|].
  exact (proj1 (create_tree_complete zero_draws (mkRowVec 1 0 0) 0 1 Hm)
               1%nat fresh_world _ _ H).
Defined.

(** C4.  Every tree returned by [create_tree] has no node with exactly one
    child, and all its root-to-leaf paths have the same length. *)
Theorem create_tree_shape draws fuel p_0 theta_0 max_layers curr_layer w t w' :
  create_tree draws fuel p_0 theta_0 max_layers curr_layer w = Some (t, w') ->
  no_single_child t = true
  /\ (forall d1 d2,
         In d1 (leaf_depths 1 t) -> In d2 (leaf_depths 1 t) -> d1 = d2).
Proof.
  intros H.
  apply (create_tree_perfect _ _ _ _ _ _ _ _ _ _ eq_refl) in H.
  destruct H as [Hp _]. split.
  - eapply perfect_no_single_child, Hp.
  - pose proof (perfect_leaf_depths _ _ 1%Z Hp) as Hd.
    rewrite Forall_forall in Hd.
    intros d1 d2 H1 H2. rewrite (Hd _ H1), (Hd _ H2). reflexivity.
Qed.

Lemma create_tree_shape_witness :
  exists d_l d_r w',
    create_tree zero_draws 1 (mkRowVec 1 0 0) 0 2 0 fresh_world
    = Some (Parton (mkRowVec 1 0 0) (Parton d_l NoneRef NoneRef)
                   (Parton d_r NoneRef NoneRef), w')
    /\ no_single_child (Parton (mkRowVec 1 0 0) (Parton d_l NoneRef NoneRef)
                                (Parton d_r NoneRef NoneRef)) = true
    /\ (forall d1 d2,
           In d1 (leaf_depths 1 (Parton (mkRowVec 1 0 0)
                                        (Parton d_l NoneRef NoneRef)
                                        (Parton d_r NoneRef NoneRef))) ->
           In d2 (leaf_depths 1 (Parton (mkRowVec 1 0 0)
                                        (Parton d_l NoneRef NoneRef)
                                        (Parton d_r NoneRef NoneRef))) ->
           d1 = d2).
Proof.
  destruct (create_tree_two_layers (mkRowVec 1 0 0) 0 fresh_world)
    as (d_l & d_r & w' & H).
  exists d_l, d_r, w'. split; [exact H|].
  exact (create_tree_shape zero_draws 1 (mkRowVec 1 0 0) 0 2 0 fresh_world
                           _ _ H).
Defined.

(** C5.  Whenever [curr_layer >= max_layers], [create_tree] returns no node
    and leaves the state as it found it: nothing is drawn from the
    generator and nothing is logged, so no sampler and no [split] ran.  It
    does so even with no fuel for the rejection loops. *)
Theorem create_tree_empty draws fuel p_0 theta_0 max_layers curr_layer w :
  (curr_layer >= max_layers)%Z ->
  create_tree draws fuel p_0 theta_0 max_layers curr_layer w
  = Some (NoneRef, w).
Proof.
  intros H. rewrite create_tree_stop by exact H. reflexivity.
Qed.

Lemma create_tree_empty_witness :
  (0 >= 0)%Z
  /\ create_tree zero_draws 0 (mkRowVec 1 0 0) 0 0 0 fresh_world
     = Some (NoneRef, fresh_world).
Proof.
  assert (H : (0 >= 0)%Z) by lia.
  split; [exact H|].
  exact (create_tree_empty zero_draws 0 (mkRowVec 1 0 0) 0 0 0 fresh_world H).
Defined.

(** ** Properties of the renderer *)

(** Rendering onto axes that already hold lines keeps them in front and
    adds what rendering onto empty axes gives. *)
Lemma create_graph_app t : forall x_0 y_0 z_0 axes,
  create_graph t x_0 y_0 z_0 axes = axes ++ create_graph t x_0 y_0 z_0 [].
Proof.
  induction t as [|d l IHl r IHr]; intros x_0 y_0 z_0 axes; simpl.
  - rewrite app_nil_r. reflexivity.
  - rewrite IHr, IHl. rewrite (IHr _ _ _ (create_graph l _ _ _ _)).
    rewrite (IHl _ _ _ [_]). rewrite <- !app_assoc. reflexivity.
Qed.

(** C6.  On [None] the renderer draws nothing.  On a node it draws the
    segment from the current origin to origin + momentum, then renders the
    left child and then the right child, both from that endpoint, so that
    the axes end up with the old lines, the node's segment, the lines of
    the left child and the lines of the right child.  A one-level tree with
    root momentum [(1,0,0)] rendered from [(0,0,0)] on empty axes gives
    exactly the segment from [(0,0,0)] to [(1,0,0)]. *)
Theorem create_graph_node :
  (forall x_0 y_0 z_0 axes, create_graph NoneRef x_0 y_0 z_0 axes = axes)
  /\ (forall d l r x_0 y_0 z_0 axes,
         let x_end := x_0 + at00 d in
         let y_end := y_0 + at01 d in
         let z_end := z_0 + at02 d in
         let own := mkLine3D (x_0, x_end) (y_0, y_end) (z_0, z_end) in
         create_graph (Parton d l r) x_0 y_0 z_0 axes =
         create_graph r x_end y_end z_end
           (create_graph l x_end y_end z_end (axes ++ [own]))
         /\ create_graph (Parton d l r) x_0 y_0 z_0 axes =
            axes ++ [own] ++ create_graph l x_end y_end z_end []
                 ++ create_graph r x_end y_end z_end [])
  /\ create_graph (Parton (mkRowVec 1 0 0) NoneRef NoneRef) 0 0 0 []
     = [mkLine3D (0, 1) (0, 0) (0, 0)].
Proof.
  split; [|split].
  - reflexivity.
  - intros d l r x_0 y_0 z_0 axes x_end y_end z_end own. split.
    + reflexivity.
    + simpl. fold x_end y_end z_end own.
      rewrite create_graph_app, (create_graph_app l).
      rewrite <- !app_assoc. reflexivity.
  - simpl. rewrite !Rplus_0_l. reflexivity.
Qed.

(** C10.  The renderer emits the segments in preorder: what it adds to the
    axes is the node's own segment, then all segments of the left subtree,
    then all segments of the right subtree, and so on within each subtree;
    lines already on the axes stay in front. *)
Theorem create_graph_preorder t : forall x_0 y_0 z_0 axes,
  create_graph t x_0 y_0 z_0 axes = axes ++ preorder_lines t x_0 y_0 z_0.
Proof.
  induction t as [|d l IHl r IHr]; intros x_0 y_0 z_0 axes; simpl.
  - rewrite app_nil_r. reflexivity.
  - rewrite IHr, IHl, <- !app_assoc. reflexivity.
Qed.

(** * Further properties *)

(** ** Rejection sampling *)

Lemma one_div_lt x y : 0 < x < y -> 1 / y < 1 / x.
Proof.
  intros H. unfold Rdiv. rewrite !Rmult_1_l.
  apply Rinv_lt_contravar; nra.
Qed.

Lemma one_div_le x y : 0 < x <= y -> 1 / y <= 1 / x.
Proof.
  intros H. unfold Rdiv. rewrite !Rmult_1_l.
  apply Rinv_le_contravar; lra.
Qed.

Lemma late_draws_rejected_z :
  ~ late_draws 1 <= 1 / (1 + late_draws 0).
Proof.
  unfold late_draws. intros H.
  assert (E : 1 / (1 + 9 / 10) = 10 / 19) by (field; lra).
  rewrite E in H. lra.
Qed.

(** What the loops leave behind: the log and numpy's settings as they
    were, and at least two draws consumed. *)
Lemma gen_z_val_frame draws fuel : forall w v w',
  gen_z_val draws fuel w = Some (v, w') ->
  np_precision w' = np_precision w /\ log w' = log w
  /\ (rand_pos w + 2 <= rand_pos w')%nat.
Proof.
  induction fuel as [|fuel IH]; intros w v w' H; [discriminate H|].
  rewrite gen_z_val_S in H. cbv zeta in H.
  destruct (Rle_dec _ _).
  - injection H as _ <-. simpl. repeat split; lia.
  - apply IH in H. simpl in H. intuition lia.
Qed.

Lemma gen_theta_val_frame draws fuel : forall w v w',
  gen_theta_val draws fuel w = Some (v, w') ->
  np_precision w' = np_precision w /\ log w' = log w
  /\ (rand_pos w + 2 <= rand_pos w')%nat.
Proof.
  induction fuel as [|fuel IH]; intros w v w' H; [discriminate H|].
  rewrite gen_theta_val_S in H. cbv zeta in H.
  destruct (Rle_dec _ _).
  - injection H as _ <-. simpl. repeat split; lia.
  - apply IH in H. simpl in H. intuition lia.
Qed.

(** X1.  [gen_z_val] returns the first draw of the first pair it accepts:
    for some round [k] the result is draw number [2k] after the cursor, the
    draw after it is at most [1 / (1 + result)], every earlier pair failed
    that test, exactly [2(k+1)] draws are consumed and nothing else in the
    state changes. *)
Theorem gen_z_val_first_accepted draws fuel : forall w v w',
  gen_z_val draws fuel w = Some (v, w') ->
  exists k, (k < fuel)%nat
    /\ v = draws (rand_pos w + 2 * k)%nat
    /\ draws (S (rand_pos w + 2 * k)) <= 1 / (1 + v)
    /\ (forall j, (j < k)%nat ->
          ~ draws (S (rand_pos w + 2 * j))
            <= 1 / (1 + draws (rand_pos w + 2 * j)%nat))
    /\ w' = mkWorld (rand_pos w + 2 * S k) (np_precision w) (log w).
Proof.
  induction fuel as [|fuel IH]; intros w v w' H; [discriminate H|].
  rewrite gen_z_val_S in H. cbv zeta in H.
  destruct (Rle_dec _ _) as [Hacc|Hrej].
  - injection H as <- <-. exists O.
    replace (rand_pos w + 2 * 0)%nat with (rand_pos w) by lia.
    repeat split; try lia; try exact Hacc.
    f_equal. lia.
  - apply IH in H. destruct H as (k & Hk & Hv & Hacc & Hrejs & Hw).
    simpl rand_pos in *. simpl np_precision in *. simpl log in *.
    exists (S k).
    replace (rand_pos w + 2 * S k)%nat with (S (S (rand_pos w)) + 2 * k)%nat
      by lia.
    repeat split; try lia; try assumption.
    + intros [|j] Hj.
      * replace (rand_pos w + 2 * 0)%nat with (rand_pos w) by lia.
        exact Hrej.
      * replace (rand_pos w + 2 * S j)%nat
          with (S (S (rand_pos w)) + 2 * j)%nat by lia.
        apply Hrejs. lia.
    + rewrite Hw. f_equal. lia.
Qed.

Lemma gen_z_val_late_draws :
  gen_z_val late_draws 2 fresh_world = Some (0, mkWorld 4 8 []).
Proof.
  rewrite gen_z_val_S. cbv zeta. simpl rand_pos.
  destruct (Rle_dec _ _) as [H|_];
    [exfalso; exact (late_draws_rejected_z H)|].
  rewrite gen_z_val_S. cbv zeta. simpl.
  destruct (Rle_dec _ _) as [_|n]; [reflexivity|].
  exfalso. apply n. lra.
Qed.

Lemma gen_z_val_first_accepted_witness :
  gen_z_val late_draws 2 fresh_world = Some (0, mkWorld 4 8 [])
  /\ exists k, (k < 2)%nat
    /\ 0 = late_draws (rand_pos fresh_world + 2 * k)%nat
    /\ late_draws (S (rand_pos fresh_world + 2 * k)) <= 1 / (1 + 0)
    /\ (forall j, (j < k)%nat ->
          ~ late_draws (S (rand_pos fresh_world + 2 * j))
            <= 1 / (1 + late_draws (rand_pos fresh_world + 2 * j)%nat))
    /\ mkWorld 4 8 []
       = mkWorld (rand_pos fresh_world + 2 * S k)
                 (np_precision fresh_world) (log fresh_world).
Proof.
  split; [exact gen_z_val_late_draws|].
  exact (gen_z_val_first_accepted late_draws 2 fresh_world 0 _
           gen_z_val_late_draws).
Defined.

(** X2.  [gen_theta_val] returns [pi/2] times the first draw of the first
    pair it accepts: the draw after it is at most [1 / (1 + result)], every
    earlier pair failed that test, exactly [2(k+1)] draws are consumed and
    nothing else in the state changes. *)
Theorem gen_theta_val_first_accepted draws fuel : forall w v w',
  gen_theta_val draws fuel w = Some (v, w') ->
  exists k, (k < fuel)%nat
    /\ v = draws (rand_pos w + 2 * k)%nat * PI / 2
    /\ draws (S (rand_pos w + 2 * k)) <= 1 / (1 + v)
    /\ (forall j, (j < k)%nat ->
          ~ draws (S (rand_pos w + 2 * j))
            <= 1 / (1 + draws (rand_pos w + 2 * j)%nat * PI / 2))
    /\ w' = mkWorld (rand_pos w + 2 * S k) (np_precision w) (log w).
Proof.
  induction fuel as [|fuel IH]; intros w v w' H; [discriminate H|].
  rewrite gen_theta_val_S in H. cbv zeta in H.
  destruct (Rle_dec _ _) as [Hacc|Hrej].
  - injection H as <- <-. exists O.
    replace (rand_pos w + 2 * 0)%nat with (rand_pos w) by lia.
    repeat split; try lia; try exact Hacc.
    f_equal. lia.
  - apply IH in H. destruct H as (k & Hk & Hv & Hacc & Hrejs & Hw).
    simpl rand_pos in *. simpl np_precision in *. simpl log in *.
    exists (S k).
    replace (rand_pos w + 2 * S k)%nat with (S (S (rand_pos w)) + 2 * k)%nat
      by lia.
    repeat split; try lia; try assumption.
    + intros [|j] Hj.
      * replace (rand_pos w + 2 * 0)%nat with (rand_pos w) by lia.
        exact Hrej.
      * replace (rand_pos w + 2 * S j)%nat
          with (S (S (rand_pos w)) + 2 * j)%nat by lia.
        apply Hrejs. lia.
    + rewrite Hw. f_equal. lia.
Qed.

Lemma late_draws_rejected_theta :
  ~ late_draws 1 <= 1 / (1 + late_draws 0 * PI / 2).
Proof.
  unfold late_draws. intros H.
  pose proof PI2_1 as Hpi.
  assert (Hlt : 1 / (1 + 9 / 10 * PI / 2) < 1 / (1 + 9 / 10))
    by (apply one_div_lt; lra).
  assert (E : 1 / (1 + 9 / 10) = 10 / 19) by (field; lra).
  rewrite E in Hlt. lra.
Qed.

Lemma gen_theta_val_late_draws :
  gen_theta_val late_draws 2 fresh_world = Some (0 * PI / 2, mkWorld 4 8 []).
Proof.
  rewrite gen_theta_val_S. cbv zeta. simpl rand_pos.
  destruct (Rle_dec _ _) as [H|_];
    [exfalso; exact (late_draws_rejected_theta H)|].
  rewrite gen_theta_val_S. cbv zeta. simpl.
  destruct (Rle_dec _ _) as [_|n]; [reflexivity|].
  exfalso. apply n. replace (0 * PI / 2) with 0 by lra. lra.
Qed.

Lemma gen_theta_val_first_accepted_witness :
  gen_theta_val late_draws 2 fresh_world = Some (0 * PI / 2, mkWorld 4 8 [])
  /\ exists k, (k < 2)%nat
    /\ 0 * PI / 2 = late_draws (rand_pos fresh_world + 2 * k)%nat * PI / 2
    /\ late_draws (S (rand_pos fresh_world + 2 * k))
       <= 1 / (1 + 0 * PI / 2)
    /\ (forall j, (j < k)%nat ->
          ~ late_draws (S (rand_pos fresh_world + 2 * j))
            <= 1 / (1 + late_draws (rand_pos fresh_world + 2 * j)%nat
                        * PI / 2))
    /\ mkWorld 4 8 []
       = mkWorld (rand_pos fresh_world + 2 * S k)
                 (np_precision fresh_world) (log fresh_world).
Proof.
  split; [exact gen_theta_val_late_draws|].
  exact (gen_theta_val_first_accepted late_draws 2 fresh_world _ _
           gen_theta_val_late_draws).
Defined.

(** X3.  [gen_z_val] accepts at once every pair whose second draw is at
    most 1/2, whatever the first draw in [0,1) is; no larger threshold
    works: for every [c] in (1/2, 1) some first draw in [0,1) makes the loop
    reject the pair and go round again. *)
Theorem gen_z_val_threshold :
  (forall draws fuel w,
      in_unit_interval draws ->
      draws (S (rand_pos w)) <= 1 / 2 ->
      gen_z_val draws (S fuel) w
      = Some (draws (rand_pos w),
              mkWorld (S (S (rand_pos w))) (np_precision w) (log w)))
  /\ (forall c, 1 / 2 < c < 1 ->
      exists num, 0 <= num < 1 /\
        forall draws fuel w,
          draws (rand_pos w) = num -> draws (S (rand_pos w)) = c ->
          gen_z_val draws (S fuel) w
          = gen_z_val draws fuel
              (mkWorld (S (S (rand_pos w))) (np_precision w) (log w))).
Proof.
  split.
  - intros draws fuel w Hd Hu. rewrite gen_z_val_S. cbv zeta.
    destruct (Rle_dec _ _) as [_|n]; [reflexivity|].
    exfalso. apply n.
    pose proof (Hd (rand_pos w)) as Hn.
    assert (1 / (1 + 1) < 1 / (1 + draws (rand_pos w)) \/
            1 / (1 + 1) = 1 / (1 + draws (rand_pos w))) as [H|H].
    { left. apply one_div_lt. lra. }
    + replace (1 / (1 + 1)) with (1 / 2) in H by (f_equal; lra). lra.
    + replace (1 / (1 + 1)) with (1 / 2) in H by (f_equal; lra). lra.
  - intros c Hc. exists (1 / (2 * c)).
    assert (Hnum : 0 < 1 / (2 * c) < 1).
    { split.
      - apply Rdiv_lt_0_compat; lra.
      - replace 1 with (1 / 1) at 2 by field. apply one_div_lt. lra. }
    split; [lra|].
    intros draws fuel w Hn Hu. rewrite gen_z_val_S. cbv zeta.
    destruct (Rle_dec _ _) as [Hacc|_]; [|reflexivity].
    exfalso. rewrite Hn, Hu in Hacc.
    assert (E : 1 / (1 + 1 / (2 * c)) = 1 / ((2 * c + 1) / (2 * c)))
      by (f_equal; field; lra).
    assert (E2 : 1 / ((2 * c + 1) / (2 * c)) = 2 * c / (2 * c + 1))
      by (field; lra).
    rewrite E, E2 in Hacc.
    assert (Hi : 0 < / (2 * c + 1)) by (apply Rinv_0_lt_compat; lra).
    assert (Hone : (2 * c + 1) * / (2 * c + 1) = 1)
      by (apply Rinv_r; lra).
    unfold Rdiv in Hacc. nra.
Qed.

Lemma theta_threshold_eq : 2 / (2 + PI) = 1 / (1 + PI / 2).
Proof. pose proof PI_RGT_0. field. lra. Qed.

(** X4.  [gen_theta_val] accepts at once every pair whose second draw is
    at most [2 / (2 + pi)], whatever the first draw in [0,1) is; no larger
    threshold works: for every [c] between [2 / (2 + pi)] and 1 some first
    draw in [0,1) makes the loop reject the pair and go round again. *)
Theorem gen_theta_val_threshold :
  (forall draws fuel w,
      in_unit_interval draws ->
      draws (S (rand_pos w)) <= 2 / (2 + PI) ->
      gen_theta_val draws (S fuel) w
      = Some (draws (rand_pos w) * PI / 2,
              mkWorld (S (S (rand_pos w))) (np_precision w) (log w)))
  /\ (forall c, 2 / (2 + PI) < c < 1 ->
      exists r, 0 <= r < 1 /\
        forall draws fuel w,
          draws (rand_pos w) = r -> draws (S (rand_pos w)) = c ->
          gen_theta_val draws (S fuel) w
          = gen_theta_val draws fuel
              (mkWorld (S (S (rand_pos w))) (np_precision w) (log w))).
Proof.
  pose proof PI_RGT_0 as Hpi.
  split.
  - intros draws fuel w Hd Hu. rewrite gen_theta_val_S. cbv zeta.
    destruct (Rle_dec _ _) as [_|n]; [reflexivity|].
    exfalso. apply n.
    pose proof (Hd (rand_pos w)) as Hn.
    rewrite theta_threshold_eq in Hu.
    eapply Rle_trans; [exact Hu|].
    apply one_div_le. nra.
  - intros c Hc. rewrite theta_threshold_eq in Hc.
    assert (Hc0 : 0 < c).
    { destruct Hc as [Hc _]. eapply Rlt_trans; [|exact Hc].
      apply Rdiv_lt_0_compat; lra. }
    assert (Hic1 : 1 < 1 / c).
    { replace 1 with (1 / 1) at 1 by field. apply one_div_lt. lra. }
    assert (Hic2 : 1 / c < 1 + PI / 2).
    { replace (1 + PI / 2) with (1 / (1 / (1 + PI / 2))) by (field; lra).
      apply one_div_lt. split; [|lra].
      apply Rdiv_lt_0_compat; lra. }
    set (y := ((1 / c - 1) + PI / 2) / 2).
    assert (Hy : 1 / c - 1 < y < PI / 2) by (unfold y; lra).
    exists (y * 2 / PI).
    assert (Hr : y * 2 / PI * PI / 2 = y) by (field; lra).
    assert (Hr0 : 0 < y * 2 / PI).
    { apply Rdiv_lt_0_compat; lra. }
    assert (Hr1 : y * 2 / PI < 1).
    { assert (E : y * 2 / PI * PI = y * 2) by (field; lra). nra. }
    split; [lra|].
    intros draws fuel w Hn Hu. rewrite gen_theta_val_S. cbv zeta.
    destruct (Rle_dec _ _) as [Hacc|_]; [|reflexivity].
    exfalso. rewrite Hn, Hu, Hr in Hacc.
    assert (Hlt : 1 / (1 + y) < 1 / (1 / c)) by (apply one_div_lt; lra).
    replace (1 / (1 / c)) with c in Hlt by (field; lra).
    lra.
Qed.

(** X5.  [gen_phi_val] never loops: it consumes exactly one draw, returns
    [pi/2] times that draw, which lies in [0, pi/2) for draws from [0,1),
    and changes nothing else in the state. *)
Theorem gen_phi_val_range draws w :
  in_unit_interval draws ->
  exists v,
    gen_phi_val draws w
    = Some (v, mkWorld (S (rand_pos w)) (np_precision w) (log w))
    /\ v = draws (rand_pos w) * PI / 2
    /\ 0 <= v < PI / 2.
Proof.
  intros Hd. eexists. split; [apply gen_phi_val_run|].
  split; [reflexivity|].
  pose proof (Hd (rand_pos w)). pose proof PI_RGT_0. nra.
Qed.

Lemma gen_phi_val_range_witness :
  in_unit_interval zero_draws
  /\ exists v,
      gen_phi_val zero_draws fresh_world
      = Some (v, mkWorld (S (rand_pos fresh_world))
                         (np_precision fresh_world) (log fresh_world))
      /\ v = zero_draws (rand_pos fresh_world) * PI / 2
      /\ 0 <= v < PI / 2.
Proof.
  split; [exact zero_draws_in_unit_interval|].
  exact (gen_phi_val_range zero_draws fresh_world zero_draws_in_unit_interval).
Defined.

(** ** More on the splitter *)

Lemma sqrt_one_plus_sin_sq phi :
  1 <= sqrt (1 + sin phi ^ 2) <= sqrt 2.
Proof.
  pose proof (SIN_bound phi) as Hs.
  assert (Hsq : 0 <= sin phi ^ 2 <= 1) by nra.
  split.
  - rewrite <- sqrt_1 at 1. apply sqrt_le_1_alt. lra.
  - apply sqrt_le_1_alt. lra.
Qed.

Lemma norm_unit_y : norm (mkRowVec 0 1 0) = 1.
Proof.
  unfold norm. simpl.
  replace (0 * 0 + 1 * 1 + 0 * 0) with 1 by ring. apply sqrt_1.
Qed.

(** X6.  For [z] in [0,1] the norms of the two children add up to
    [||p_0|| * sqrt (1 + sin(phi)^2)]: a split never loses total momentum
    magnitude and gains at most a factor [sqrt 2]. *)
Theorem split_norm_sum p_0 z theta_0 theta phi w :
  0 <= z <= 1 ->
  exists p_a p_b,
    eval (split p_0 z theta_0 theta phi) w = Some (p_a, p_b)
    /\ norm p_a + norm p_b = norm p_0 * sqrt (1 + sin phi ^ 2)
    /\ norm p_0 <= norm p_a + norm p_b <= sqrt 2 * norm p_0.
Proof.
  intros Hz. pose proof (norm_nonneg p_0) as Hn.
  pose proof (sqrt_one_plus_sin_sq phi) as Hs.
  unfold eval. rewrite split_run. do 2 eexists. split; [reflexivity|].
  rewrite !norm_scaled by nra. rewrite sin_shift_PI_sq.
  split; [ring|].
  replace (norm p_0 * z * sqrt (1 + sin phi ^ 2)
           + norm p_0 * (1 - z) * sqrt (1 + sin phi ^ 2))
    with (norm p_0 * sqrt (1 + sin phi ^ 2)) by ring.
  split; nra.
Qed.

Lemma split_norm_sum_witness :
  0 <= 1 / 2 <= 1
  /\ exists p_a p_b,
      eval (split (mkRowVec 1 0 0) (1 / 2) 0 0 (PI / 2)) fresh_world
      = Some (p_a, p_b)
      /\ norm p_a + norm p_b
         = norm (mkRowVec 1 0 0) * sqrt (1 + sin (PI / 2) ^ 2)
      /\ norm (mkRowVec 1 0 0) <= norm p_a + norm p_b
         <= sqrt 2 * norm (mkRowVec 1 0 0).
Proof.
  assert (Hz : 0 <= 1 / 2 <= 1) by lra.
  split; [exact Hz|].
  exact (split_norm_sum (mkRowVec 1 0 0) (1 / 2) 0 0 (PI / 2) fresh_world Hz).
Defined.



(** X8.  [split] uses its input vector only through its norm: two input
    vectors of equal norm give the same two children, whatever their
    directions; the direction of the children comes from [theta_0] alone. *)
Theorem split_ignores_direction p q z theta_0 theta phi w w2 :
  norm p = norm q ->
  eval (split p z theta_0 theta phi) w = eval (split q z theta_0 theta phi) w2.
Proof.
  intros H. unfold eval. rewrite !split_run. cbv zeta. rewrite H.
  reflexivity.
Qed.

Lemma split_ignores_direction_witness :
  norm (mkRowVec 1 0 0) = norm (mkRowVec 0 1 0)
  /\ eval (split (mkRowVec 1 0 0) (1 / 2) 0 1 2) fresh_world
     = eval (split (mkRowVec 0 1 0) (1 / 2) 0 1 2) fresh_world.
Proof.
  assert (H : norm (mkRowVec 1 0 0) = norm (mkRowVec 0 1 0))
    by (rewrite norm_unit_x, norm_unit_y; reflexivity).
  split; [exact H|].
  exact (split_ignores_direction (mkRowVec 1 0 0) (mkRowVec 0 1 0) (1 / 2)
                                 0 1 2 fresh_world fresh_world H).
Defined.

(** ** More on the tree builder *)

(** One layer of [create_tree], step by step. *)
Lemma create_tree_step_inv draws fuel p_0 theta_0 max_layers curr_layer w t w' :
  (curr_layer < max_layers)%Z ->
  create_tree draws fuel p_0 theta_0 max_layers curr_layer w = Some (t, w') ->
  exists z theta w1 w2 l r w5,
    gen_z_val draws fuel w = Some (z, w1)
    /\ gen_theta_val draws fuel w1 = Some (theta, w2)
    /\ let phi := draws (rand_pos w2) * PI / 2 in
       let pp := children_of (norm p_0) z theta_0 theta phi in
       let w4 := mkWorld (S (rand_pos w2)) 2
                   (log w2 ++ [LogAngles (theta_0 * 180 / PI)
                                         (theta * 180 / PI) (phi * 180 / PI);
                               LogSplit p_0 (fst pp) (snd pp)]) in
       create_tree draws fuel (fst pp) (theta_0 + theta) max_layers
         (curr_layer + 1) w4 = Some (l, w5)
       /\ create_tree draws fuel (snd pp) (theta_0 - theta) max_layers
            (curr_layer + 1) w5 = Some (r, w')
       /\ t = Parton p_0 l r.
Proof.
  intros Hlt H. rewrite create_tree_step in H by exact Hlt.
  apply bind_Some in H as (z & w1 & Hz & H).
  apply bind_Some in H as (theta & w2 & Ht & H).
  apply bind_Some in H as (phi & w3 & Hp & H).
  apply bind_Some in H as ([p_rad p_f] & w4 & Hs & H).
  apply bind_Some in H as (l & w5 & Hl & H).
  apply bind_Some in H as (r & w6 & Hr & H).
  injection H as <- <-.
  rewrite gen_phi_val_run in Hp. injection Hp as <- <-.
  rewrite split_run in Hs. cbv zeta in Hs. injection Hs as <- <- <-.
  exists z, theta, w1, w2, l, r, w5.
  split; [exact Hz|]. split; [exact Ht|].
  cbv zeta. unfold children_of. simpl fst. simpl snd. simpl rand_pos in *.
  simpl np_precision in *. simpl log in *.
  split; [exact Hl|]. split; [exact Hr|reflexivity].
Qed.

Lemma split_sources_app a b :
  split_sources (a ++ b) = split_sources a ++ split_sources b.
Proof.
  induction a as [|[? ? ?|? ? ?] a IH]; simpl; rewrite ?IH; reflexivity.
Qed.

(** X9.  Started at any layer [curr_layer <= max_layers], [create_tree]
    returns a complete tree of [max_layers - curr_layer] layers: it has
    [2^(max_layers - curr_layer) - 1] nodes, every leaf is that many nodes
    below the top, and when a layer is left to build the result is a node
    (never [None]) that stores [p_0] itself. *)
Theorem create_tree_layers draws fuel p_0 theta_0 max_layers curr_layer w t w' :
  (curr_layer <= max_layers)%Z ->
  create_tree draws fuel p_0 theta_0 max_layers curr_layer w = Some (t, w') ->
  Z.of_nat (size t) = (2 ^ (max_layers - curr_layer) - 1)%Z
  /\ Forall (fun d => d = (max_layers - curr_layer)%Z) (leaf_depths 1 t)
  /\ ((curr_layer < max_layers)%Z -> exists l r, t = Parton p_0 l r).
Proof.
  intros Hle H.
  apply (create_tree_perfect _ _ _ _ _ _ _ _ _ _ eq_refl) in H.
  destruct H as [Hp Hroot]. split; [|split].
  - apply perfect_size in Hp. apply (f_equal Z.of_nat) in Hp.
    rewrite Nat2Z.inj_succ, Nat2Z.inj_pow, Z2Nat.id in Hp by lia.
    change (Z.of_nat 2) with 2%Z in Hp. lia.
  - eapply Forall_impl; [|apply (perfect_leaf_depths _ _ 1%Z Hp)].
    cbv beta. intros d ->. lia.
  - intros Hlt.
    destruct (Z.to_nat (max_layers - curr_layer)) as [|h] eqn:E; [lia|].
    destruct t as [|d l r]; simpl in Hp; [contradiction|].
    simpl in Hroot. subst d. exists l, r. reflexivity.
Qed.

Lemma create_tree_layers_witness :
  (3 <= 4)%Z
  /\ exists w',
      create_tree zero_draws 1 (mkRowVec 1 0 0) 0 4 3 fresh_world
      = Some (Parton (mkRowVec 1 0 0) NoneRef NoneRef, w')
      /\ Z.of_nat (size (Parton (mkRowVec 1 0 0) NoneRef NoneRef))
         = (2 ^ (4 - 3) - 1)%Z
      /\ Forall (fun d => d = (4 - 3)%Z)
                (leaf_depths 1 (Parton (mkRowVec 1 0 0) NoneRef NoneRef))
      /\ ((3 < 4)%Z ->
          exists l r,
            Parton (mkRowVec 1 0 0) NoneRef NoneRef = Parton (mkRowVec 1 0 0) l r).
Proof.
  assert (Hle : (3 <= 4)%Z) by lia.
  split; [exact Hle|].
  destruct (create_tree_last_layer (mkRowVec 1 0 0) 0 4 fresh_world) as [w' H].
  change (4 - 1)%Z with 3%Z in H.
  exists w'. split; [exact H|].
  exact (create_tree_layers zero_draws 1 (mkRowVec 1 0 0) 0 4 3 fresh_world
                            _ _ Hle H).
Defined.

(** X10.  Building a tree consumes at least five draws per node (two or
    more for each rejection loop, one for the azimuth), and any call that
    builds a node leaves numpy's print precision at 2; a call that returns
    [None] leaves it as it was. *)
Theorem create_tree_draws draws fuel p_0 theta_0 max_layers curr_layer w t w' :
  create_tree draws fuel p_0 theta_0 max_layers curr_layer w = Some (t, w') ->
  (rand_pos w + 5 * size t <= rand_pos w')%nat
  /\ np_precision w' = (if is_none t then np_precision w else 2%Z).
Proof.
  remember (Z.to_nat (max_layers - curr_layer)) as n eqn:Hn.
  revert p_0 theta_0 curr_layer w t w' Hn.
  induction n as [|n IH]; intros p_0 theta_0 curr_layer w t w' Hn H.
  - rewrite create_tree_stop in H by lia. injection H as <- <-.
    simpl. split; [lia | reflexivity].
  - apply create_tree_step_inv in H; [|lia].
    destruct H as (z & theta & w1 & w2 & l & r & w5 & Hz & Ht & Hl & Hr & ->).
    cbv zeta in Hl, Hr.
    apply gen_z_val_frame in Hz. apply gen_theta_val_frame in Ht.
    apply IH in Hl; [|lia]. apply IH in Hr; [|lia].
    simpl rand_pos in *. simpl np_precision in *. simpl size. simpl is_none.
    split; [lia|].
    destruct Hr as [_ ->]. destruct Hl as [_ ->].
    destruct (is_none r), (is_none l); reflexivity.
Qed.

Lemma create_tree_draws_witness :
  exists d_l d_r w',
    create_tree zero_draws 1 (mkRowVec 1 0 0) 0 2 0 fresh_world
    = Some (Parton (mkRowVec 1 0 0) (Parton d_l NoneRef NoneRef)
                   (Parton d_r NoneRef NoneRef), w')
    /\ (rand_pos fresh_world + 5 * 3 <= rand_pos w')%nat
    /\ np_precision w' = 2%Z.
Proof.
  destruct (create_tree_two_layers (mkRowVec 1 0 0) 0 fresh_world)
    as (d_l & d_r & w' & H).
  exists d_l, d_r, w'. split; [exact H|].
  exact (create_tree_draws zero_draws 1 (mkRowVec 1 0 0) 0 2 0 fresh_world
                           _ _ H).
Defined.

(** X11.  [create_tree] only appends to the log, two records per node, and
    the [split ... into ...] records it adds report the momenta of the
    nodes of the returned tree in preorder (leaves included: the last layer
    is split too, although its children are never built). *)
Theorem create_tree_log draws fuel p_0 theta_0 max_layers curr_layer w t w' :
  create_tree draws fuel p_0 theta_0 max_layers curr_layer w = Some (t, w') ->
  exists entries,
    log w' = log w ++ entries
    /\ length entries = (2 * size t)%nat
    /\ split_sources entries = preorder_data t.
Proof.
  remember (Z.to_nat (max_layers - curr_layer)) as n eqn:Hn.
  revert p_0 theta_0 curr_layer w t w' Hn.
  induction n as [|n IH]; intros p_0 theta_0 curr_layer w t w' Hn H.
  - rewrite create_tree_stop in H by lia. injection H as <- <-.
    exists []. rewrite app_nil_r. repeat split.
  - apply create_tree_step_inv in H; [|lia].
    destruct H as (z & theta & w1 & w2 & l & r & w5 & Hz & Ht & Hl & Hr & ->).
    cbv zeta in Hl, Hr.
    apply gen_z_val_frame in Hz. apply gen_theta_val_frame in Ht.
    apply IH in Hl; [|lia]. apply IH in Hr; [|lia].
    destruct Hl as (e1 & Hl1 & Hl2 & Hl3).
    destruct Hr as (e2 & Hr1 & Hr2 & Hr3).
    simpl log in Hl1.
    destruct Hz as (_ & Hz & _). destruct Ht as (_ & Ht & _).
    rewrite Ht, Hz in Hl1.
    eexists (_ :: _ :: e1 ++ e2). split; [|split].
    + rewrite Hr1, Hl1, <- !app_assoc. reflexivity.
    + simpl. rewrite length_app, Hl2, Hr2. lia.
    + simpl. rewrite split_sources_app, Hl3, Hr3. reflexivity.
Qed.

Lemma create_tree_log_witness :
  exists d_l d_r w',
    create_tree zero_draws 1 (mkRowVec 1 0 0) 0 2 0 fresh_world
    = Some (Parton (mkRowVec 1 0 0) (Parton d_l NoneRef NoneRef)
                   (Parton d_r NoneRef NoneRef), w')
    /\ exists entries,
        log w' = log fresh_world ++ entries
        /\ length entries = (2 * 3)%nat
        /\ split_sources entries = [mkRowVec 1 0 0; d_l; d_r].
Proof.
  destruct (create_tree_two_layers (mkRowVec 1 0 0) 0 fresh_world)
    as (d_l & d_r & w' & H).
  exists d_l, d_r, w'. split; [exact H|].
  exact (create_tree_log zero_draws 1 (mkRowVec 1 0 0) 0 2 0 fresh_world
                         _ _ H).
Defined.

(** Whatever holds of every split with sampled parameters holds of every
    node with children in a returned tree. *)
Lemma create_tree_families draws (P : RowVec -> RowVec -> RowVec -> Prop) :
  in_unit_interval draws ->
  (forall p z theta_0 theta phi,
      0 <= z < 1 -> 0 <= theta < PI / 2 -> 0 <= phi < PI / 2 ->
      P p (fst (children_of (norm p) z theta_0 theta phi))
          (snd (children_of (norm p) z theta_0 theta phi))) ->
  forall fuel n p_0 theta_0 max_layers curr_layer w t w',
    Z.to_nat (max_layers - curr_layer) = n ->
    create_tree draws fuel p_0 theta_0 max_layers curr_layer w = Some (t, w') ->
    Forall (fun f => P (fst (fst f)) (snd (fst f)) (snd f)) (families t).
Proof.
  intros Hd HP fuel.
  induction n as [|n IH]; intros p_0 theta_0 max_layers curr_layer w t w' Hn H.
  - rewrite create_tree_stop in H by lia. injection H as <- _. constructor.
  - apply create_tree_step_inv in H; [|lia].
    destruct H as (z & theta & w1 & w2 & l & r & w5 & Hz & Ht & Hl & Hr & ->).
    cbv zeta in Hl, Hr.
    apply (gen_z_val_range _ _ Hd) in Hz.
    apply (gen_theta_val_range _ _ Hd) in Ht.
    assert (Hphi : 0 <= draws (rand_pos w2) * PI / 2 < PI / 2).
    { pose proof (Hd (rand_pos w2)). pose proof PI_RGT_0. nra. }
    pose proof (create_tree_perfect _ _ _ _ _ _ _ _ _ _ eq_refl Hl)
      as [_ Hrl].
    pose proof (create_tree_perfect _ _ _ _ _ _ _ _ _ _ eq_refl Hr)
      as [_ Hrr].
    apply IH in Hl; [|lia]. apply IH in Hr; [|lia].
    simpl families. apply Forall_app. split; [|apply Forall_app; split];
      try assumption.
    destruct l as [|dl ? ?]; [constructor|].
    destruct r as [|dr ? ?]; [constructor|].
    simpl in Hrl, Hrr. subst dl dr.
    constructor; [|constructor]. simpl fst. simpl snd.
    apply (HP p_0 z theta_0 theta _ Hz Ht Hphi).
Qed.

(** X12.  In a tree built from draws in [0,1), the two children of every
    node are a split of the node's own momentum: they are what [split]
    computes from the norm of the parent for some energy fraction in [0,1),
    some splitting angle in [0, pi/2) and some azimuth in [0, pi/2). *)
Theorem create_tree_families_are_splits draws fuel p_0 theta_0 max_layers
    curr_layer w t w' :
  in_unit_interval draws ->
  create_tree draws fuel p_0 theta_0 max_layers curr_layer w = Some (t, w') ->
  Forall (fun f =>
            let '(d, d_l, d_r) := f in
            exists z theta_0 theta phi,
              0 <= z < 1 /\ 0 <= theta < PI / 2 /\ 0 <= phi < PI / 2
              /\ (d_l, d_r) = children_of (norm d) z theta_0 theta phi)
         (families t).
Proof.
  intros Hd H.
  eapply Forall_impl;
    [|eapply (create_tree_families draws
                (fun d d_l d_r =>
                   exists z theta_0 theta phi,
                     0 <= z < 1 /\ 0 <= theta < PI / 2 /\ 0 <= phi < PI / 2
                     /\ (d_l, d_r) = children_of (norm d) z theta_0 theta phi)
                Hd); [|reflexivity|exact H]].
  - intros [[d d_l] d_r]. simpl. exact (fun x => x).
  - intros p z th0 th phi Hz Ht Hp. exists z, th0, th, phi.
    repeat split; try tauto.
Qed.

Lemma create_tree_families_are_splits_witness :
  in_unit_interval zero_draws
  /\ exists d_l d_r w',
      create_tree zero_draws 1 (mkRowVec 1 0 0) 0 2 0 fresh_world
      = Some (Parton (mkRowVec 1 0 0) (Parton d_l NoneRef NoneRef)
                     (Parton d_r NoneRef NoneRef), w')
      /\ Forall (fun f =>
                   let '(d, d_l, d_r) := f in
                   exists z theta_0 theta phi,
                     0 <= z < 1 /\ 0 <= theta < PI / 2 /\ 0 <= phi < PI / 2
                     /\ (d_l, d_r) = children_of (norm d) z theta_0 theta phi)
                (families (Parton (mkRowVec 1 0 0)
                                  (Parton d_l NoneRef NoneRef)
                                  (Parton d_r NoneRef NoneRef))).
Proof.
  split; [exact zero_draws_in_unit_interval|].
  destruct (create_tree_two_layers (mkRowVec 1 0 0) 0 fresh_world)
    as (d_l & d_r & w' & H).
  exists d_l, d_r, w'. split; [exact H|].
  exact (create_tree_families_are_splits zero_draws 1 (mkRowVec 1 0 0) 0 2 0
           fresh_world _ _ zero_draws_in_unit_interval H).
Defined.



(** ** More on the renderer *)

Lemma create_graph_cons d l r x_0 y_0 z_0 :
  create_graph (Parton d l r) x_0 y_0 z_0 [] =
  mkLine3D (x_0, x_0 + at00 d) (y_0, y_0 + at01 d) (z_0, z_0 + at02 d)
  :: create_graph l (x_0 + at00 d) (y_0 + at01 d) (z_0 + at02 d) []
  ++ create_graph r (x_0 + at00 d) (y_0 + at01 d) (z_0 + at02 d) [].
Proof.
  simpl. rewrite create_graph_app, (create_graph_app l). reflexivity.
Qed.

Lemma create_graph_length t : forall x_0 y_0 z_0 axes,
  length (create_graph t x_0 y_0 z_0 axes) = (length axes + size t)%nat.
Proof.
  induction t as [|d l IHl r IHr]; intros x_0 y_0 z_0 axes; simpl.
  - lia.
  - rewrite IHr, IHl, length_app. simpl. lia.
Qed.

Lemma chained_incl ls : forall pts pts',
  incl pts pts' -> chained pts ls -> chained pts' ls.
Proof.
  induction ls as [|l ls IH]; intros pts pts' Hi H; simpl in *; [exact I|].
  destruct H as [Hs Hc]. split; [apply Hi, Hs|].
  eapply IH; [|exact Hc].
  intros q [<-|Hq]; [left; reflexivity | right; apply Hi, Hq].
Qed.

Lemma chained_app a : forall b pts,
  chained pts a -> chained pts b -> chained pts (a ++ b).
Proof.
  induction a as [|l a IH]; intros b pts Ha Hb; simpl in *; [exact Hb|].
  destruct Ha as [Hs Ha]. split; [exact Hs|].
  apply IH; [exact Ha|].
  eapply chained_incl; [|exact Hb]. intros q Hq. right. exact Hq.
Qed.

Lemma create_graph_chained_from t : forall x_0 y_0 z_0 pts,
  In (x_0, y_0, z_0) pts -> chained pts (create_graph t x_0 y_0 z_0 []).
Proof.
  induction t as [|d l IHl r IHr]; intros x_0 y_0 z_0 pts Hin.
  - exact I.
  - rewrite create_graph_cons. simpl. split; [exact Hin|].
    apply chained_app; [apply IHl | apply IHr]; left; reflexivity.
Qed.

(** X14.  Every line the renderer plots starts at the origin it was given
    or at the end of a line plotted before it: the picture is connected and
    each vector starts where an earlier one ends. *)
Theorem create_graph_chained t x_0 y_0 z_0 :
  chained [(x_0, y_0, z_0)] (create_graph t x_0 y_0 z_0 []).
Proof.
  apply create_graph_chained_from. left. reflexivity.
Qed.

(** X15.  Rendering from a shifted origin shifts the picture: moving the
    origin and the lines already on the axes by [(dx, dy, dz)] moves every
    line of the result by the same vector. *)
Theorem create_graph_translate t : forall x_0 y_0 z_0 dx dy dz axes,
  create_graph t (x_0 + dx) (y_0 + dy) (z_0 + dz)
               (map (translate dx dy dz) axes)
  = map (translate dx dy dz) (create_graph t x_0 y_0 z_0 axes).
Proof.
  induction t as [|d l IHl r IHr]; intros x_0 y_0 z_0 dx dy dz axes; simpl.
  - reflexivity.
  - replace (x_0 + dx + at00 d) with (x_0 + at00 d + dx) by ring.
    replace (y_0 + dy + at01 d) with (y_0 + at01 d + dy) by ring.
    replace (z_0 + dz + at02 d) with (z_0 + at02 d + dz) by ring.
    rewrite <- IHr, <- IHl, map_app. reflexivity.
Qed.

(** X16.  The plot keeps every momentum: the vectors from start to end of
    the plotted lines, in plotting order, are the momenta stored in the
    tree in preorder, wherever the rendering starts. *)
Theorem create_graph_displacements t : forall x_0 y_0 z_0,
  map displacement (create_graph t x_0 y_0 z_0 []) = preorder_data t.
Proof.
  induction t as [|d l IHl r IHr]; intros x_0 y_0 z_0.
  - reflexivity.
  - rewrite create_graph_cons. simpl. rewrite map_app, IHl, IHr.
    f_equal. destruct d as [a b c]. unfold displacement. simpl.
    f_equal; ring.
Qed.

(** X17.  Rendering a tree built by [create_tree p_0 theta_0 max_layers 0]
    with [max_layers >= 0] onto empty axes plots exactly
    [2^max_layers - 1] lines, and when [max_layers > 0] the first of them
    runs from the origin to origin + [p_0]. *)
Theorem render_built_tree draws fuel p_0 theta_0 max_layers w t w'
    x_0 y_0 z_0 :
  (0 <= max_layers)%Z ->
  create_tree draws fuel p_0 theta_0 max_layers 0 w = Some (t, w') ->
  Z.of_nat (length (create_graph t x_0 y_0 z_0 [])) = (2 ^ max_layers - 1)%Z
  /\ ((0 < max_layers)%Z ->
      nth_error (create_graph t x_0 y_0 z_0 []) 0
      = Some (mkLine3D (x_0, x_0 + at00 p_0) (y_0, y_0 + at01 p_0)
                       (z_0, z_0 + at02 p_0))).
Proof.
  intros Hm H.
  apply (create_tree_perfect _ _ (Z.to_nat max_layers)) in H;
    [|rewrite Z.sub_0_r; reflexivity].
  destruct H as [Hp Hroot]. split.
  - rewrite create_graph_length. simpl length.
    apply perfect_size in Hp. apply (f_equal Z.of_nat) in Hp.
    rewrite Nat2Z.inj_succ, Nat2Z.inj_pow, Z2Nat.id in Hp by lia.
    change (Z.of_nat 2) with 2%Z in Hp. lia.
  - intros Hlt.
    destruct (Z.to_nat max_layers) as [|h] eqn:E; [lia|].
    destruct t as [|d l r]; simpl in Hp; [contradiction|].
    simpl in Hroot. subst d. rewrite create_graph_cons. reflexivity.
Qed.

Lemma render_built_tree_witness :
  (0 <= 2)%Z
  /\ exists t w',
      create_tree zero_draws 1 (mkRowVec 1 0 0) 0 2 0 fresh_world
      = Some (t, w')
      /\ Z.of_nat (length (create_graph t 0 0 0 [])) = (2 ^ 2 - 1)%Z
      /\ ((0 < 2)%Z ->
          nth_error (create_graph t 0 0 0 []) 0
          = Some (mkLine3D (0, 0 + at00 (mkRowVec 1 0 0))
                           (0, 0 + at01 (mkRowVec 1 0 0))
                           (0, 0 + at02 (mkRowVec 1 0 0)))).
Proof.
  assert (Hm : (0 <= 2)%Z) by lia.
  split; [exact Hm|].
  destruct (create_tree_two_layers (mkRowVec 1 0 0) 0 fresh_world)
    as (d_l & d_r & w' & H).
  eexists. exists w'. split; [exact H|].
  exact (render_built_tree zero_draws 1 (mkRowVec 1 0 0) 0 2 fresh_world
                           _ _ 0 0 0 Hm H).
Defined.

(** ** The entry point *)

Lemma perfect_four_size t : perfect 4 t -> size t = 15%nat.
Proof. intros H. apply perfect_size in H. simpl in H. lia. Qed.

(** X18.  Whatever is drawn, when the program reaches [visualize] the axes
    hold exactly 30 lines: the 15 of the first shower, which start with the
    line from the origin to (100, 100, 100), then the 15 of the second
    shower, which start with the line from the origin to
    (-100, -100, -100); every line starts at the origin or where an earlier
    line ends.  The program gets there, given enough fuel, whenever the
    draws let every rejection loop accept. *)
Theorem main_plot draws :
  (forall fuel w axes w',
      main draws fuel w = Some (axes, w') ->
      length axes = 30%nat
      /\ nth_error axes 0 = Some (mkLine3D (0, 100) (0, 100) (0, 100))
      /\ nth_error axes 15
         = Some (mkLine3D (0, - 100) (0, - 100) (0, - 100))
      /\ chained [(0, 0, 0)] axes)
  /\ (eventually_accepts draws ->
      forall w, exists fuel axes w', main draws fuel w = Some (axes, w')).
Proof.
  split.
  - intros fuel w axes w' H. unfold main in H. cbv zeta in H.
    apply bind_Some in H as (root_0 & w1 & H0 & H).
    apply bind_Some in H as (root_1 & w2 & H1 & H).
    injection H as <- _.
    apply (create_tree_perfect _ _ 4%nat) in H0; [|reflexivity].
    apply (create_tree_perfect _ _ 4%nat) in H1; [|reflexivity].
    destruct H0 as [Hp0 Hr0]. destruct H1 as [Hp1 Hr1].
    pose proof (perfect_four_size _ Hp0) as Hs0.
    pose proof (perfect_four_size _ Hp1) as Hs1.
    unfold Visualizer3D_init. rewrite create_graph_app.
    assert (Hl0 : length (create_graph root_0 0 0 0 []) = 15%nat)
      by (rewrite create_graph_length, Hs0; reflexivity).
    destruct root_0 as [|d0 l0 r0]; [discriminate Hs0|].
    destruct root_1 as [|d1 l1 r1]; [discriminate Hs1|].
    simpl in Hr0, Hr1. subst d0 d1.
    split; [|split; [|split]].
    + rewrite length_app, Hl0, create_graph_length, Hs1. reflexivity.
    + rewrite create_graph_cons. simpl. rewrite !Rplus_0_l. reflexivity.
    + rewrite nth_error_app2 by lia. rewrite Hl0.
      rewrite create_graph_cons. simpl. rewrite !Rplus_0_l. reflexivity.
    + apply chained_app; apply create_graph_chained_from; left; reflexivity.
  - intros Hd w.
    destruct (create_tree_total _ Hd 4%nat (mkRowVec 100 100 100) (PI / 4)
                4%Z 0%Z w eq_refl) as (f0 & [root_0 w1] & H0).
    destruct (create_tree_total _ Hd 4%nat
                (mkRowVec (-100) (-100) (-100)) (PI * 5 / 4)
                4%Z 0%Z w1 eq_refl) as (f1 & [root_1 w2] & H1).
    apply (create_tree_mono _ f0 (Nat.max f0 f1) ltac:(lia) 4%nat) in H0;
      [|reflexivity].
    apply (create_tree_mono _ f1 (Nat.max f0 f1) ltac:(lia) 4%nat) in H1;
      [|reflexivity].
    exists (Nat.max f0 f1). do 2 eexists. unfold main. cbv zeta.
    rewrite (bind_run _ _ _ _ _ H0), (bind_run _ _ _ _ _ H1).
    reflexivity.
Qed.

(** ** Invariants along the recursion *)

Lemma aligned_child m a s : 0 <= m ->
  aligned (mkRowVec (m * cos a) (m * sin a) s) a
  /\ planar_norm (mkRowVec (m * cos a) (m * sin a) s) = m.
Proof.
  intros Hm. unfold aligned, planar_norm. simpl.
  rewrite sqrt_scaled_circle by exact Hm. auto.
Qed.

Lemma angle_identities a b :
  cos (a + b) * cos a + sin (a + b) * sin a = cos b
  /\ cos a * sin (a + b) - sin a * cos (a + b) = sin b
  /\ cos (a - b) * cos a + sin (a - b) * sin a = cos b
  /\ cos a * sin (a - b) - sin a * cos (a - b) = - sin b.
Proof.
  pose proof (sin2_cos2 a) as H. unfold Rsqr in H.
  rewrite cos_plus, sin_plus, cos_minus, sin_minus.
  repeat split.
  - replace ((cos a * cos b - sin a * sin b) * cos a
             + (sin a * cos b + cos a * sin b) * sin a)
      with (cos b * (sin a * sin a + cos a * cos a)) by ring.
    rewrite H. ring.
  - replace (cos a * (sin a * cos b + cos a * sin b)
             - sin a * (cos a * cos b - sin a * sin b))
      with (sin b * (sin a * sin a + cos a * cos a)) by ring.
    rewrite H. ring.
  - replace ((cos a * cos b + sin a * sin b) * cos a
             + (sin a * cos b - cos a * sin b) * sin a)
      with (cos b * (sin a * sin a + cos a * cos a)) by ring.
    rewrite H. ring.
  - replace (cos a * (sin a * cos b - cos a * sin b)
             - sin a * (cos a * cos b + sin a * sin b))
      with (- sin b * (sin a * sin a + cos a * cos a)) by ring.
    rewrite H. ring.
Qed.

(** X19.  When the root momentum points, in the xy-plane, along [theta_0]
    (as the callers arrange), every node of a tree built from draws in [0,1)
    has its two children turned in the xy-plane by one and the same angle
    [theta] in [0, pi/2) away from it, the left child to the left and the
    right child to the right. *)
Theorem create_tree_in_plane_angles draws fuel p_0 theta_0 max_layers
    curr_layer w t w' :
  in_unit_interval draws ->
  aligned p_0 theta_0 ->
  create_tree draws fuel p_0 theta_0 max_layers curr_layer w = Some (t, w') ->
  Forall (fun f =>
            let '(d, d_l, d_r) := f in
            exists theta,
              0 <= theta < PI / 2
              /\ planar_dot d_l d
                 = planar_norm d_l * planar_norm d * cos theta
              /\ planar_cross d d_l
                 = planar_norm d * planar_norm d_l * sin theta
              /\ planar_dot d_r d
                 = planar_norm d_r * planar_norm d * cos theta
              /\ planar_cross d d_r
                 = - (planar_norm d * planar_norm d_r * sin theta))
         (families t).
Proof.
  intros Hd.
  remember (Z.to_nat (max_layers - curr_layer)) as n eqn:Hn.
  revert p_0 theta_0 curr_layer w t w' Hn.
  induction n as [|n IH]; intros p_0 theta_0 curr_layer w t w' Hn Hal H.
  - rewrite create_tree_stop in H by lia. injection H as <- _. constructor.
  - apply create_tree_step_inv in H; [|lia].
    destruct H as (z & theta & w1 & w2 & l & r & w5 & Hz & Ht & Hl & Hr & ->).
    cbv zeta in Hl, Hr.
    apply (gen_z_val_range _ _ Hd) in Hz.
    apply (gen_theta_val_range _ _ Hd) in Ht.
    pose proof (norm_nonneg p_0) as Hnn.
    assert (Hm1 : 0 <= norm p_0 * z) by nra.
    assert (Hm2 : 0 <= norm p_0 * (1 - z)) by nra.
    unfold children_of in Hl, Hr. simpl fst in Hl. simpl snd in Hr.
    destruct (aligned_child (norm p_0 * z) (theta_0 + theta)
                (norm p_0 * z * sin (draws (rand_pos w2) * PI / 2)) Hm1)
      as [Hal_l Hpl].
    destruct (aligned_child (norm p_0 * (1 - z)) (theta_0 - theta)
                (norm p_0 * (1 - z)
                 * sin (draws (rand_pos w2) * PI / 2 + PI)) Hm2)
      as [Hal_r Hpr].
    pose proof (create_tree_perfect _ _ _ _ _ _ _ _ _ _ eq_refl Hl)
      as [_ Hrl].
    pose proof (create_tree_perfect _ _ _ _ _ _ _ _ _ _ eq_refl Hr)
      as [_ Hrr].
    apply IH in Hl; [|lia|exact Hal_l]. apply IH in Hr; [|lia|exact Hal_r].
    simpl families. apply Forall_app. split; [|apply Forall_app; split];
      try assumption.
    destruct l as [|dl ? ?]; [constructor|].
    destruct r as [|dr ? ?]; [constructor|].
    simpl in Hrl, Hrr. subst dl dr.
    constructor; [|constructor].
    exists theta. split; [exact Ht|].
    rewrite Hpl, Hpr. destruct Hal as [Hx Hy].
    unfold planar_dot, planar_cross. simpl at00. simpl at01.
    rewrite Hx, Hy.
    destruct (angle_identities theta_0 theta) as (E1 & E2 & E3 & E4).
    set (P := planar_norm p_0). set (m := norm p_0).
    repeat split.
    + replace (m * z * cos (theta_0 + theta) * (P * cos theta_0)
               + m * z * sin (theta_0 + theta) * (P * sin theta_0))
        with (m * z * P * (cos (theta_0 + theta) * cos theta_0
                           + sin (theta_0 + theta) * sin theta_0)) by ring.
      rewrite E1. ring.
    + replace (P * cos theta_0 * (m * z * sin (theta_0 + theta))
               - P * sin theta_0 * (m * z * cos (theta_0 + theta)))
        with (P * (m * z) * (cos theta_0 * sin (theta_0 + theta)
                             - sin theta_0 * cos (theta_0 + theta))) by ring.
      rewrite E2. ring.
    + replace (m * (1 - z) * cos (theta_0 - theta) * (P * cos theta_0)
               + m * (1 - z) * sin (theta_0 - theta) * (P * sin theta_0))
        with (m * (1 - z) * P * (cos (theta_0 - theta) * cos theta_0
                                 + sin (theta_0 - theta) * sin theta_0))
        by ring.
      rewrite E3. ring.
    + replace (P * cos theta_0 * (m * (1 - z) * sin (theta_0 - theta))
               - P * sin theta_0 * (m * (1 - z) * cos (theta_0 - theta)))
        with (P * (m * (1 - z)) * (cos theta_0 * sin (theta_0 - theta)
                                   - sin theta_0 * cos (theta_0 - theta)))
        by ring.
      rewrite E4. ring.
Qed.

Lemma aligned_unit_x : aligned (mkRowVec 1 0 0) 0.
Proof.
  unfold aligned, planar_norm. simpl.
  replace (1 * 1 + 0 * 0) with 1 by ring.
  rewrite sqrt_1, cos_0, sin_0. split; ring.
Qed.

Lemma create_tree_in_plane_angles_witness :
  in_unit_interval zero_draws /\ aligned (mkRowVec 1 0 0) 0
  /\ exists d_l d_r w',
      create_tree zero_draws 1 (mkRowVec 1 0 0) 0 2 0 fresh_world
      = Some (Parton (mkRowVec 1 0 0) (Parton d_l NoneRef NoneRef)
                     (Parton d_r NoneRef NoneRef), w')
      /\ Forall (fun f =>
                   let '(d, d_l, d_r) := f in
                   exists theta,
                     0 <= theta < PI / 2
                     /\ planar_dot d_l d
                        = planar_norm d_l * planar_norm d * cos theta
                     /\ planar_cross d d_l
                        = planar_norm d * planar_norm d_l * sin theta
                     /\ planar_dot d_r d
                        = planar_norm d_r * planar_norm d * cos theta
                     /\ planar_cross d d_r
                        = - (planar_norm d * planar_norm d_r * sin theta))
                (families (Parton (mkRowVec 1 0 0)
                                  (Parton d_l NoneRef NoneRef)
                                  (Parton d_r NoneRef NoneRef))).
Proof.
  split; [exact zero_draws_in_unit_interval|].
  split; [exact aligned_unit_x|].
  destruct (create_tree_two_layers (mkRowVec 1 0 0) 0 fresh_world)
    as (d_l & d_r & w' & H).
  exists d_l, d_r, w'. split; [exact H|].
  exact (create_tree_in_plane_angles zero_draws 1 (mkRowVec 1 0 0) 0 2 0
           fresh_world _ _ zero_draws_in_unit_interval aligned_unit_x H).
Defined.

Lemma leaf_norm_sum_bounds h : forall t,
  perfect (S h) t ->
  Forall (fun f => norm (fst (fst f)) <= norm (snd (fst f)) + norm (snd f)
                   <= sqrt 2 * norm (fst (fst f))) (families t) ->
  root_norm t <= leaf_norm_sum t <= sqrt 2 ^ h * root_norm t.
Proof.
  induction h as [|h IH]; intros [|d l r] Hp Hf; simpl in Hp; try contradiction.
  - destruct Hp as [Hl Hr]. destruct l, r; simpl in Hl, Hr; try contradiction.
    simpl. lra.
  - destruct Hp as [Hl Hr].
    assert (Hs : 0 <= sqrt 2 ^ S h) by (apply pow_le, sqrt_pos).
    destruct l as [|dl ll lr]; [simpl in Hl; contradiction|].
    destruct r as [|dr rl rr]; [simpl in Hr; contradiction|].
    simpl families in Hf.
    apply Forall_cons_iff in Hf. destruct Hf as [Hd Hf].
    apply Forall_app in Hf. destruct Hf as [Hfl Hfr].
    simpl in Hd.
    pose proof (IH (Parton dl ll lr) Hl Hfl) as IHl.
    pose proof (IH (Parton dr rl rr) Hr Hfr) as IHr.
    simpl root_norm in *.
    change (leaf_norm_sum (Parton d (Parton dl ll lr) (Parton dr rl rr)))
      with (leaf_norm_sum (Parton dl ll lr) + leaf_norm_sum (Parton dr rl rr)).
    assert (Hs' : 0 <= sqrt 2 ^ h) by (apply pow_le, sqrt_pos).
    split; [lra|].
    change (sqrt 2 ^ S h) with (sqrt 2 * sqrt 2 ^ h). nra.
Qed.

(** X20.  In a non-empty tree built from draws in [0,1), the norms of the
    leaf momenta add up to at least the norm of the initial momentum and to
    at most [sqrt 2] to the power (number of layers - 1) times it: the
    shower never loses momentum magnitude on its way down. *)
Theorem create_tree_leaf_norms draws fuel p_0 theta_0 max_layers curr_layer
    w t w' :
  in_unit_interval draws ->
  (curr_layer < max_layers)%Z ->
  create_tree draws fuel p_0 theta_0 max_layers curr_layer w = Some (t, w') ->
  norm p_0 <= leaf_norm_sum t
  <= sqrt 2 ^ (Z.to_nat (max_layers - curr_layer) - 1) * norm p_0.
Proof.
  intros Hd Hlt H.
  pose proof (create_tree_perfect _ _ _ _ _ _ _ _ _ _ eq_refl H) as [Hp Hroot].
  pose proof (create_tree_families draws
                (fun d d_l d_r =>
                   norm d <= norm d_l + norm d_r <= sqrt 2 * norm d) Hd) as Hf.
  specialize (Hf ltac:(
    intros p z th0 th phi Hz Ht Hphi;
    pose proof (norm_nonneg p);
    pose proof (sqrt_one_plus_sin_sq phi);
    unfold children_of; simpl fst; simpl snd;
    rewrite !norm_scaled by nra; rewrite sin_shift_PI_sq;
    replace (norm p * z * sqrt (1 + sin phi ^ 2)
             + norm p * (1 - z) * sqrt (1 + sin phi ^ 2))
      with (norm p * sqrt (1 + sin phi ^ 2)) by ring;
    split; nra)).
  specialize (Hf _ _ _ _ _ _ _ _ _ eq_refl H).
  destruct (Z.to_nat (max_layers - curr_layer)) as [|h] eqn:E; [lia|].
  replace (S h - 1)%nat with h by lia.
  pose proof (leaf_norm_sum_bounds h t Hp Hf) as Hb.
  destruct t as [|d l r]; [simpl in Hp; contradiction|].
  simpl in Hroot. subst d. exact Hb.
Qed.

Lemma create_tree_leaf_norms_witness :
  in_unit_interval zero_draws /\ (0 < 2)%Z
  /\ exists t w',
      create_tree zero_draws 1 (mkRowVec 1 0 0) 0 2 0 fresh_world
      = Some (t, w')
      /\ norm (mkRowVec 1 0 0) <= leaf_norm_sum t
         <= sqrt 2 ^ (Z.to_nat (2 - 0) - 1) * norm (mkRowVec 1 0 0).
Proof.
  assert (Hlt : (0 < 2)%Z) by lia.
  split; [exact zero_draws_in_unit_interval|]. split; [exact Hlt|].
  destruct (create_tree_two_layers (mkRowVec 1 0 0) 0 fresh_world)
    as (d_l & d_r & w' & H).
  eexists. exists w'. split; [exact H|].
  exact (create_tree_leaf_norms zero_draws 1 (mkRowVec 1 0 0) 0 2 0
           fresh_world _ _ zero_draws_in_unit_interval Hlt H).
Defined.
